(** * go-ndn: the encoding substrate (Wire, parse errors) and the schema Tree

    A shallow embedding of [pkg/encoding] (Buffer, Wire, [Wire.Join], the
    parse-error types) and of [pkg/schema] ([Tree] with [Attach], [Detach],
    [Match], [intHandler], [PutNode]), with the properties the specification
    states about them.

    Conventions.
    - A Go slice is a view (pointer, offset, length) into a backing array of
      a memory; [make] and [copy] act on that memory, so that sharing between
      a Wire and the result of [Join] is visible.
    - Slice lengths are [nat]: a Go [int] holding the length of data that
      exists in memory does not wrap.
    - Interface values ([NTNode], [ndn.Engine]) are references into a world
      of objects; [None] is Go's nil interface.  The Tree's methods run in a
      state monad over that world and record every call they make.
    - The readers-writer lock of the Tree is not modelled: the embedding is
      of one goroutine.

    Layout.  [Encoding] and [Schema] embed the two packages; [BaseNodes] is
    a world of routing-only nodes with one handler table, for the
    properties that need the nodes behind the interfaces; [Examples] holds
    the concrete inputs.  The lemmas and the theorems on the claims C1 to
    C10 of the specification follow. *)

From Stdlib.Strings Require Import Byte.
From stdpp Require Import gmap strings list pretty.

Abbreviation byte := Byte.byte.

(* ===================================================================== *)
(** * Package encoding                                                    *)
(* ===================================================================== *)

Module Encoding.

(** ** Memory and slices *)

(** Where a slice points: nowhere (the nil slice), at the runtime's
    zero-size base (what an empty composite literal gets), or at the backing
    array with the given allocation index. *)
Inductive pointer : Type :=
  | NilPtr
  | ZeroBase
  | Arr (i : nat).

#[global] Instance pointer_eq_dec : EqDecision pointer.
Proof. solve_decision. Defined.

(** [type Buffer []byte]: a slice header. *)
Record Buffer : Type := mkBuffer {
  ptr : pointer;
  off : nat;
  len : nat
}.

#[global] Instance Buffer_eq_dec : EqDecision Buffer.
Proof. solve_decision. Defined.

(** [type Wire []Buffer]. *)
Abbreviation Wire := (list Buffer).

(** The backing arrays, by allocation index. *)
Abbreviation Mem := (list (list byte)).

Definition load (m : Mem) (p : pointer) : list byte :=
  match p with
  | Arr i => default [] (m !! i)
  | _ => []
  end.

(** The bytes a slice denotes in a memory. *)
Definition bytes_of (m : Mem) (b : Buffer) : list byte :=
  take (len b) (drop (off b) (load m (ptr b))).

(** A slice header is well formed in [m] when its window lies inside its
    backing array; every slice a Go program holds is. *)
Definition valid (m : Mem) (b : Buffer) : Prop :=
  off b + len b ≤ length (load m (ptr b)).

#[global] Instance valid_dec m b : Decision (valid m b).
Proof. unfold valid. apply _. Defined.

Definition store (m : Mem) (p : pointer) (o : nat) (data : list byte) : Mem :=
  match p with
  | Arr i =>
      match m !! i with
      | Some arr => <[i := take o arr ++ data ++ drop (o + length data) arr]> m
      | None => m
      end
  | _ => m
  end.

(** [[]byte{}] *)
Definition empty_lit : Buffer := mkBuffer ZeroBase 0 0.

(** [make([]byte, n)]: a fresh zeroed array. *)
Definition make (n : nat) (m : Mem) : Buffer * Mem :=
  (mkBuffer (Arr (length m)) 0 n, m ++ [replicate n Byte.x00]).

(** [copy(dst, src)]: copies [min(len(dst), len(src))] bytes and returns
    that count. *)
Definition copy (dst src : Buffer) (m : Mem) : nat * Mem :=
  let n := len dst `min` len src in
  (n, store m (ptr dst) (off dst) (take n (bytes_of m src))).

(** [b[lo:]]: panics ([None]) when [lo] exceeds the length. *)
Definition slice_from (b : Buffer) (lo : nat) : option Buffer :=
  if decide (lo ≤ len b) then Some (mkBuffer (ptr b) (off b + lo) (len b - lo))
  else None.

(** ** Wire.Join *)

(** The body of [for _, v := range w[1:] { bp += copy(b[bp:], v) }]. *)
Definition Join_step (b : Buffer) (acc : option (nat * Mem)) (v : Buffer)
  : option (nat * Mem) :=
  '(bp, m) ← acc;
  dst ← slice_from b bp;
  let '(k, m') := copy dst v m in
  Some (bp + k, m').

Definition Join (w : Wire) (m : Mem) : option (Buffer * Mem) :=
  match w with
  | [] => Some (empty_lit, m)
  | [w0] => Some (w0, m)
  | w0 :: rest =>
      let n := foldl (λ n v, n + len v) 0 w in
      let '(b, m1) := make n m in
      let '(bp, m2) := copy b w0 m1 in
      '(_, m3) ← foldl (Join_step b) (Some (bp, m2)) rest;
      Some (b, m3)
  end.

(** The byte at global offset [i] of the stream a Wire stands for. *)
Fixpoint stream_at (m : Mem) (w : Wire) (i : nat) : option byte :=
  match w with
  | [] => None
  | v :: w' =>
      if decide (i < len v) then bytes_of m v !! i
      else stream_at m w' (i - len v)
  end.

Definition total_len (w : Wire) : nat := foldr (λ v n, len v + n) 0 w.

(** ** Parse errors *)

(** Modelled from the spec: the declaration of [TLNum] is not among the
    sources; the specification has it as "a non-negative integer used for both
    TLV type numbers and length fields". *)
Definition TLNum : Type := N.

(** Go's [error] interface, closed over the error types this package
    declares; [errorString] is what [errors.New] returns.  A field of type
    [error] may hold nil, hence [option error]. *)
#[warnings="-register-all"] Inductive error : Type :=
  | ErrFormat (Msg : string)
  | ErrNotFound (Key : string)
  | ErrUnrecognizedField (TypeNum : TLNum)
  | ErrSkipRequired (TypeNum : TLNum)
  | ErrFailToParse (TypeNum : TLNum) (Err : option error)
  | ErrUnexpected (Err : option error)
  | errorString (s : string).

Definition ErrBufferOverflow : error :=
  errorString "Buffer overflow when parsing. One of the TLV Length is wrong".

Definition ErrIncorrectDigest : error :=
  errorString "The sha256 digest is missing or incorrect".

(** The verb [%d] on an unsigned number. *)
Definition fmt_d (n : TLNum) : string := pretty n.

(** The [Error()] methods; the verb [%v] prints an error by its [Error()]
    and a nil interface as [<nil>]. *)
Fixpoint Error (e : error) : string :=
  let fmt_v (o : option error) : string :=
    match o with
    | Some e' => Error e'
    | None => "<nil>"
    end in
  match e with
  | ErrFormat Msg => Msg
  | ErrNotFound Key => Key +:+ ": not found"
  | ErrUnrecognizedField t =>
      "There exists an unrecognized field that has a critical type number: "
      +:+ fmt_d t
  | ErrSkipRequired t =>
      "The required field of type " +:+ fmt_d t +:+ " is missing in the wire"
  | ErrFailToParse t err =>
      "Failed to parse field " +:+ fmt_d t +:+ ": " +:+ fmt_v err
  | ErrUnexpected err =>
      "Unexpected error happened in parsing: " +:+ fmt_v err
  | errorString s => s
  end.

(** [Unwrap()], declared by [ErrFailToParse] and [ErrUnexpected] only;
    [errors.Unwrap] gives nil on every other error. *)
Definition Unwrap (e : error) : option error :=
  match e with
  | ErrFailToParse _ err => err
  | ErrUnexpected err => err
  | _ => None
  end.

(** [s] contains [sub]. *)
Definition contains (s sub : string) : Prop :=
  ∃ pre post, s = pre +:+ sub +:+ post.

(** ** ParseReader *)

(** [v[lo:hi]], sharing the backing array of [v]. *)
Definition sub (v : Buffer) (lo hi : nat) : Buffer :=
  mkBuffer (ptr v) (off v + lo) (hi - lo).

(** Modelled from the spec: the sources declare the [ParseReader] interface
    only; the readers that implement it are not among them.  The
    specification has a reader "positioned at byte offset p within a Wire of
    length L", with [Range(a,b)] returning "a Wire covering absolute offsets
    [a,b), zero-copy; does not move cursor".  The reader below is a Wire and
    a cursor; [Range] cuts the window out of the Wire's own Buffers.  Only
    windows inside the Wire are fixed by the specification. *)
Record ParseReader : Type := mkReader {
  rd_wire : Wire;
  rd_pos : nat
}.

Definition Length (r : ParseReader) : nat := total_len (rd_wire r).

Definition Pos (r : ParseReader) : nat := rd_pos r.

Fixpoint Range_wire (w : Wire) (start end_ : nat) : Wire :=
  match w with
  | [] => []
  | v :: w' =>
      if decide (len v ≤ start) then Range_wire w' (start - len v) (end_ - len v)
      else if decide (end_ ≤ len v) then [sub v start end_]
      else sub v start (len v) :: Range_wire w' 0 (end_ - len v)
  end.

(** The reader is passed through, as a method on a reader object would. *)
Definition Range (start end_ : nat) (r : ParseReader) : Wire * ParseReader :=
  (Range_wire (rd_wire r) start end_, r).

End Encoding.

(* ===================================================================== *)
(** * Package schema                                                      *)
(* ===================================================================== *)

Module Schema.
Import Encoding.

(** ** Names, patterns, Interests *)

(** Modelled from the spec: [enc.Component], [enc.Name], [enc.NamePattern],
    [enc.Matching] and the component type numbers are declared outside the
    sources.  The specification has a Component as "a type number ... and a
    value Buffer", with ImplicitSha256Digest=1 and ParametersSha256Digest=2;
    a pattern element is "either literal ... or variable slots with a tag
    name and an optional type constraint"; a Matching is "a mapping from
    slot-tag to the raw Buffer".  No claim on this package depends on the
    sharing of byte slices, so a value is its bytes. *)
Record Component : Type := mkComponent {
  Typ : TLNum;
  Val : list byte
}.

#[global] Instance byte_eq_dec : EqDecision byte := Byte.byte_eq_dec.

#[global] Instance Component_eq_dec : EqDecision Component.
Proof. solve_decision. Defined.

Abbreviation Name := (list Component).

(** The type number of the zero Component, [enc.Component{}]; 0 is the
    number NDN reserves as invalid. *)
Definition TypeInvalidComponent : TLNum := 0%N.
Definition TypeImplicitSha256DigestComponent : TLNum := 1%N.
Definition TypeParametersSha256DigestComponent : TLNum := 2%N.

(** [enc.Component{}] *)
Definition zeroComponent : Component := mkComponent 0%N [].

(** The interface [enc.ComponentPattern]: nil, a Component (a literal), or
    a variable slot. *)
Inductive ComponentPattern : Type :=
  | CP_nil
  | CP_Component (c : Component)
  | CP_Pattern (typ : option TLNum) (tag : string).

#[global] Instance ComponentPattern_eq_dec : EqDecision ComponentPattern.
Proof. solve_decision. Defined.

Abbreviation NamePattern := (list ComponentPattern).
Abbreviation Matching := (gmap string (list byte)).

(** Interface values are references to objects of the world. *)
Abbreviation NodeRef := nat.
Abbreviation EngRef := nat.

(** Modelled from the spec: [ndn.Interest], [ndn.ReplyFunc] and
    [ndn.Engine] are declared outside the sources.  Of an Interest the Tree
    reads the name only; the other field stands for the rest of the
    packet.  The reply callback and the deadline are passed through to the
    node as they come. *)
Record Interest : Type := mkInterest {
  int_Name : Name;
  int_id : nat
}.

(** The arguments an Interest handler is called with. *)
Record InterestArgs : Type := mkArgs {
  interest : Interest;
  rawInterest : Wire;
  sigCovered : Wire;
  reply : nat;
  deadline : Z
}.

(** The handler given to the engine: the method value [t.intHandler]. *)
Inductive Handler : Type := Tree_intHandler.

(** ** The objects behind the interfaces *)

(** The methods of [NTNode] and [ndn.Engine] that the Tree calls, as
    transformers of a world [W] of objects; their implementations are
    outside the sources.  [Match] hands back an allocated map. *)
Class World (W : Type) : Type := {
  node_SetAttachedPrefix : NodeRef → Name → W → option error * W;
  node_AttachedPrefix : NodeRef → W → Name;
  node_OnAttach : NodeRef → NamePattern → option EngRef → W → option error * W;
  node_OnDetach : NodeRef → W → W;
  node_Match : NodeRef → Name → W → (option NodeRef * Matching) * W;
  node_OnInterest : NodeRef → InterestArgs → Matching → W → W;
  node_At : NodeRef → NamePattern → W → option NodeRef;
  node_PutNode : NodeRef → NamePattern → option NodeRef → W → option error * W;
  node_Init : NodeRef → option NodeRef → ComponentPattern → W → W;
  new_BaseNode : W → NodeRef * W;
  engine_AttachHandler : EngRef → Name → Handler → W → option error * W;
  engine_DetachHandler : EngRef → Name → W → option error * W
}.

(** ** The Tree and the monad its methods run in *)

Record Tree : Type := mkTree {
  Root : option NodeRef;
  Engine : option EngRef
}.

Inductive Level : Type := Info | Warn.

(** What the Tree's methods do to the outside, in order. *)
Inductive Call : Type :=
  | CallSetAttachedPrefix (n : NodeRef) (prefix : Name) (ret : option error)
  | CallAttachedPrefix (n : NodeRef) (ret : Name)
  | CallOnAttach (n : NodeRef) (path : NamePattern) (engine : option EngRef)
                 (ret : option error)
  | CallOnDetach (n : NodeRef)
  | CallMatch (n : NodeRef) (name : Name) (ret : option NodeRef * Matching)
  | CallOnInterest (n : NodeRef) (args : InterestArgs) (matching : Matching)
  | CallAt (n : NodeRef) (path : NamePattern) (ret : option NodeRef)
  | CallPutNode (n : NodeRef) (path : NamePattern) (node : option NodeRef)
                (ret : option error)
  | CallInit (n : NodeRef) (parent : option NodeRef) (edge : ComponentPattern)
  | CallNewBaseNode (ret : NodeRef)
  | CallAttachHandler (e : EngRef) (prefix : Name) (h : Handler)
                      (ret : option error)
  | CallDetachHandler (e : EngRef) (prefix : Name) (ret : option error)
  | CallLog (level : Level) (msg : string).

Inductive panic : Type :=
  | NilDereference
  | IndexOutOfRange (index : Z) (length : nat).

Inductive Result (S A : Type) : Type :=
  | Done (a : A) (s : S)
  | Panicked (p : panic) (s : S).
Arguments Done {S A} a s.
Arguments Panicked {S A} p s.

Definition M (S A : Type) : Type := S → Result S A.

#[global] Instance M_ret {S} : MRet (M S) := λ A a s, Done a s.

#[global] Instance M_bind {S} : MBind (M S) := λ A B f c s,
  match c s with
  | Done a s' => f a s'
  | Panicked p s' => Panicked p s'
  end.

Section Tree.

Context {W : Type} `{!World W}.

Record State : Type := mkState {
  tree : Tree;
  world : W;
  calls : list Call
}.

Definition gets {A} (f : State → A) : M State A := λ s, Done (f s) s.

Definition raise {A} (p : panic) : M State A := λ s, Panicked p s.

Definition setRoot (r : option NodeRef) : M State unit := λ s,
  Done () (mkState (mkTree r (Engine (tree s))) (world s) (calls s)).

Definition setEngine (e : option EngRef) : M State unit := λ s,
  Done () (mkState (mkTree (Root (tree s)) e) (world s) (calls s)).

(** A method call on an interface value: nil panics. *)
Definition deref {A} (o : option A) : M State A :=
  match o with
  | Some a => mret a
  | None => raise NilDereference
  end.

(** A call into the world that returns [A]; [ev] is its record. *)
Definition invoke {A} (f : W → A * W) (ev : A → Call) : M State A := λ s,
  let '(a, w') := f (world s) in
  Done a (mkState (tree s) w' (calls s ++ [ev a])).

Definition invoke_ (f : W → W) (ev : Call) : M State unit :=
  invoke (λ w, ((), f w)) (λ _, ev).

Definition log (level : Level) (msg : string) : M State unit :=
  invoke_ id (CallLog level msg).

(** [l[i]], with Go's bounds check. *)
Definition index {A} (l : list A) (i : Z) : M State A :=
  match (if decide (0 ≤ i)%Z then l !! Z.to_nat i else None) with
  | Some a => mret a
  | None => raise (IndexOutOfRange i (length l))
  end.

(** [l[:i]], with Go's bounds check. *)
Definition slice_to {A} (l : list A) (i : Z) : M State (list A) :=
  if decide (0 ≤ i ≤ Z.of_nat (length l))%Z then mret (take (Z.to_nat i) l)
  else raise (IndexOutOfRange i (length l)).

(** ** Tree.Attach *)

(** [for i, c := range prefix { path[i] = c }] from index [i] on. *)
Fixpoint fill_path (i : nat) (cs : Name) (path : NamePattern) : NamePattern :=
  match cs with
  | [] => path
  | c :: cs' => fill_path (S i) cs' (<[i := CP_Component c]> path)
  end.

(** [path := make(enc.NamePattern, len(prefix))] and the loop after it. *)
Definition make_path (prefix : Name) : NamePattern :=
  fill_path 0 prefix (replicate (length prefix) CP_nil).

Definition Attach (prefix : Name) (engine : option EngRef)
  : M State (option error) :=
  root ← gets (Root ∘ tree);
  r ← deref root;
  err ← invoke (node_SetAttachedPrefix r prefix)
               (CallSetAttachedPrefix r prefix);
  if err is Some _ then mret err else
  let path := make_path prefix in
  err ← invoke (node_OnAttach r path engine) (CallOnAttach r path engine);
  if err is Some _ then mret err else
  e ← deref engine;
  err ← invoke (engine_AttachHandler e prefix Tree_intHandler)
               (CallAttachHandler e prefix Tree_intHandler);
  if err is Some _ then mret err else
  log Info "Attached to engine.";;
  setEngine engine;;
  mret None.

(** ** Tree.Detach *)

Definition Detach : M State unit :=
  eng ← gets (Engine ∘ tree);
  match eng with
  | None => mret ()
  | Some e =>
      log Info "Detached from engine";;
      root ← gets (Root ∘ tree);
      r ← deref root;
      prefix ← invoke (λ w, (node_AttachedPrefix r w, w)) (CallAttachedPrefix r);
      _ ← invoke (engine_DetachHandler e prefix) (CallDetachHandler e prefix);
      root ← gets (Root ∘ tree);
      r ← deref root;
      invoke_ (node_OnDetach r) (CallOnDetach r)
  end.

(** ** Tree.Match *)

Definition Match (name : Name) : M State (option NodeRef * Matching) :=
  root ← gets (Root ∘ tree);
  r ← deref root;
  invoke (node_Match r name) (CallMatch r name).

(** ** Tree.intHandler *)

Definition last_index (name : Name) : Z := Z.of_nat (length name) - 1.

(** The condition of the first [if]: the two reads of the last component,
    the second only when the first comparison fails. *)
Definition ends_with_digest (matchName : Name) : M State bool :=
  c ← index matchName (last_index matchName);
  if decide (Typ c = TypeParametersSha256DigestComponent) then mret true
  else
    c ← index matchName (last_index matchName);
    mret (bool_decide (Typ c = TypeImplicitSha256DigestComponent)).

(** The [if] and the [switch] that extend the matching. *)
Definition add_digest (extraComp : Component) (matching : Matching) : Matching :=
  if decide (Typ extraComp ≠ TypeInvalidComponent) then
    if decide (Typ extraComp = TypeParametersSha256DigestComponent) then
      <["params-sha256" := Val extraComp]> matching
    else if decide (Typ extraComp = TypeImplicitSha256DigestComponent) then
      <["sha256digest" := Val extraComp]> matching
    else matching
  else matching.

Definition intHandler (args : InterestArgs) : M State unit :=
  let matchName := int_Name (interest args) in
  let extraComp := zeroComponent in
  digest ← ends_with_digest matchName;
  '(extraComp, matchName) ←
    (if digest : bool then
       c ← index matchName (last_index matchName);
       init ← slice_to matchName (last_index matchName);
       mret (c, init)
     else mret (extraComp, matchName));
  root ← gets (Root ∘ tree);
  r ← deref root;
  '(node, matching) ← invoke (node_Match r matchName) (CallMatch r matchName);
  match node with
  | None => log Warn "Unexpected Interest. Drop."
  | Some n =>
      let matching := add_digest extraComp matching in
      invoke_ (node_OnInterest n args matching) (CallOnInterest n args matching)
  end.

(** ** Tree.At *)

Definition At (path : NamePattern) : M State (option NodeRef) :=
  root ← gets (Root ∘ tree);
  r ← deref root;
  invoke (λ w, (node_At r path w, w)) (CallAt r path).

(** ** Tree.PutNode *)

Definition PutNode (path : NamePattern) (node : option NodeRef)
  : M State (option error) :=
  root ← gets (Root ∘ tree);
  if decide (length path = 0) then
    match root with
    | None => setRoot node;; mret None
    | Some _ => mret (Some (errorString "schema node already exists"))
    end
  else
    (if root is None then
       r ← invoke new_BaseNode CallNewBaseNode;
       setRoot (Some r);;
       invoke_ (node_Init r None CP_nil) (CallInit r None CP_nil)
     else mret ());;
    root ← gets (Root ∘ tree);
    r ← deref root;
    invoke (node_PutNode r path node) (CallPutNode r path node).

(** ** The engine's side *)

(** Modelled from the spec: the engine is outside the sources.  The
    specification has [AttachHandler] register a prefix in the handler
    table, [DetachHandler] remove it, and an arriving Interest go to "the
    longest-matching prefix handler".  The handlers the engines hold are
    read off the record of calls: a registration stands from an
    [AttachHandler] that returned no error to a [DetachHandler] of the same
    prefix on the same engine. *)
Fixpoint registered (cs : list Call) (acc : list (EngRef * Name))
  : list (EngRef * Name) :=
  match cs with
  | [] => acc
  | CallAttachHandler e p _ None :: cs' => registered cs' (acc ++ [(e, p)])
  | CallDetachHandler e p _ :: cs' =>
      registered cs' (filter (λ x, x ≠ (e, p)) acc)
  | _ :: cs' => registered cs' acc
  end.

(** An Interest arrives at engine [e]: the Tree's handler runs when a
    prefix registered there covers the Interest's name. *)
Definition deliver (e : EngRef) (args : InterestArgs) : M State unit :=
  cs ← gets calls;
  if bool_decide (Exists (λ x, x.1 = e ∧ x.2 `prefix_of` int_Name (interest args))
                         (registered cs []))
  then intHandler args
  else mret ().

(** What can happen to a Tree, one after the other. *)
Inductive Op : Type :=
  | OpAttach (prefix : Name) (engine : option EngRef)
  | OpDetach
  | OpPutNode (path : NamePattern) (node : option NodeRef)
  | OpMatch (name : Name)
  | OpInterest (e : EngRef) (args : InterestArgs).

Definition step (op : Op) : M State unit :=
  match op with
  | OpAttach prefix engine => _ ← Attach prefix engine; mret ()
  | OpDetach => Detach
  | OpPutNode path node => _ ← PutNode path node; mret ()
  | OpMatch name => _ ← Match name; mret ()
  | OpInterest e args => deliver e args
  end.

Fixpoint run (ops : list Op) : M State unit :=
  match ops with
  | [] => mret ()
  | op :: ops' => step op;; run ops'
  end.

(** The state a run ends in, also when it ends in a panic. *)
Definition final {A} (r : Result State A) : State :=
  match r with
  | Done _ s => s
  | Panicked _ s => s
  end.

(** ** The order of the life cycle, as a scan of the record of calls *)

(** Nothing attached yet; [OnAttach] has returned without error; a handler
    has been registered after that. *)
Inductive Phase : Type := Fresh | Attached | Serving.

(** The phase after one more call; [None] when the call comes too early:
    a registration before any [OnAttach] that succeeded, an [OnInterest]
    before any registration. *)
Definition advance (ph : Phase) (c : Call) : option Phase :=
  match c with
  | CallOnAttach _ _ _ None => Some (if ph is Fresh then Attached else ph)
  | CallAttachHandler _ _ _ None => if ph is Fresh then None else Some Serving
  | CallOnInterest _ _ _ => if ph is Serving then Some Serving else None
  | _ => Some ph
  end.

Definition scan (o : option Phase) (cs : list Call) : option Phase :=
  foldl (λ o c, ph ← o; advance ph c) o cs.

Definition is_OnAttach_ok (c : Call) : Prop :=
  ∃ r path eng, c = CallOnAttach r path eng None.

Definition is_AttachHandler_ok (c : Call) : Prop :=
  ∃ e p h, c = CallAttachHandler e p h None.

Definition is_OnInterest (c : Call) : Prop :=
  ∃ n args m, c = CallOnInterest n args m.

(** In a record of calls, every [OnInterest] comes after a registration of
    the handler that itself comes after an [OnAttach] that returned without
    error. *)
Definition interests_after_attach (cs : list Call) : Prop :=
  ∀ i c, cs !! i = Some c → is_OnInterest c →
    ∃ j k cj ck, j < k ∧ k < i
      ∧ cs !! j = Some cj ∧ is_OnAttach_ok cj
      ∧ cs !! k = Some ck ∧ is_AttachHandler_ok ck.

(** What a phase says about the record that led to it. *)
Definition phase_reached (ph : Phase) (cs : list Call) : Prop :=
  match ph with
  | Fresh => True
  | Attached => ∃ j cj, cs !! j = Some cj ∧ is_OnAttach_ok cj
  | Serving => ∃ j k cj ck, j < k
      ∧ cs !! j = Some cj ∧ is_OnAttach_ok cj
      ∧ cs !! k = Some ck ∧ is_AttachHandler_ok ck
  end.

End Tree.

End Schema.

(* ===================================================================== *)
(** * A world of BaseNodes and one handler table                          *)
(* ===================================================================== *)

Module BaseNodes.
Import Encoding Schema.

(** Modelled from the spec: [BaseNode], the node behind [NTNode] that does
    "only routing; no intrinsic behavior", and its [Match], [At] and
    [PutNode] are outside the sources.  The specification has a node hold
    "a map of child edges keyed by NamePattern component"; [Match] "walks
    the root-to-leaf edges consuming name components; at each edge it tries
    literal children first, then variable-slot children in insertion order
    (deterministic tie-break)" and returns "(node, matching) or (nil, _)";
    on a variable slot "the component's value Buffer is bound to the slot
    name (the tag)"; [PutNode] creates "BaseNode placeholders for missing
    intermediates" and "fails with AlreadyExists at a terminal that is
    occupied".  A node below is its identity and its children, in insertion
    order, each under its edge.  The edge that is chosen is followed
    without return. *)
#[warnings="-register-all"] Inductive NTree : Type :=
  | NT (id : NodeRef) (chd : list (ComponentPattern * NTree)).

Definition nt_id (t : NTree) : NodeRef := let 'NT i _ := t in i.
Definition nt_chd (t : NTree) : list (ComponentPattern * NTree) :=
  let 'NT _ chd := t in chd.

Definition is_literal (p : ComponentPattern) : bool :=
  if p is CP_Component _ then true else false.

Definition is_slot (p : ComponentPattern) : bool :=
  if p is CP_Pattern _ _ then true else false.

(** Whether an edge lets a component through: a literal matches "only
    itself", a slot any component that meets its type constraint. *)
Definition accepts (p : ComponentPattern) (c : Component) : bool :=
  match p with
  | CP_nil => false
  | CP_Component c' => bool_decide (c' = c)
  | CP_Pattern None _ => true
  | CP_Pattern (Some ty) _ => bool_decide (ty = Typ c)
  end.

Definition bind_slot (p : ComponentPattern) (c : Component) (m : Matching)
  : Matching :=
  match p with
  | CP_Pattern _ tag => <[tag := Val c]> m
  | _ => m
  end.

(** The first child of one kind whose edge accepts [c]. *)
Definition first_of (kind : ComponentPattern → bool) (c : Component)
    (chd : list (ComponentPattern * NTree)) : option (ComponentPattern * NTree) :=
  snd <$> list_find (λ e, kind e.1 && accepts e.1 c = true) chd.

(** Literal children first, then the slots. *)
Definition pick (c : Component) (chd : list (ComponentPattern * NTree))
  : option (ComponentPattern * NTree) :=
  match first_of is_literal c chd with
  | Some e => Some e
  | None => first_of is_slot c chd
  end.

Fixpoint Match_from (name : Name) (t : NTree) (m : Matching)
  : option NodeRef * Matching :=
  match name with
  | [] => (Some (nt_id t), m)
  | c :: name' =>
      match pick c (nt_chd t) with
      | Some (p, t') => Match_from name' t' (bind_slot p c m)
      | None => (None, m)
      end
  end.

(** [At]: "a structural lookup by NamePattern (no matching)". *)
Fixpoint At_from (path : NamePattern) (t : NTree) : option NodeRef :=
  match path with
  | [] => Some (nt_id t)
  | p :: path' =>
      match list_find (λ e, e.1 = p) (nt_chd t) with
      | Some (_, (_, t')) => At_from path' t'
      | None => None
      end
  end.

(** [PutNode] below a node; [fresh] numbers the placeholders.  [None] is
    the AlreadyExists failure. *)
Fixpoint put (path : NamePattern) (node : NTree) (fresh : NodeRef) (t : NTree)
  : option (NTree * NodeRef) :=
  match path with
  | [] => None
  | p :: path' =>
      match list_find (λ e, e.1 = p) (nt_chd t) with
      | Some (k, (_, t')) =>
          '(t'', fresh') ← put path' node fresh t';
          Some (NT (nt_id t) (<[k := (p, t'')]> (nt_chd t)), fresh')
      | None =>
          match path' with
          | [] => Some (NT (nt_id t) (nt_chd t ++ [(p, node)]), fresh)
          | _ =>
              '(t'', fresh') ← put path' node (S fresh) (NT fresh []);
              Some (NT (nt_id t) (nt_chd t ++ [(p, t'')]), fresh')
          end
      end
  end.

(** The nodes of a subtree, parents first (depth-first) and children first
    (bottom-up). *)
Fixpoint top_down (t : NTree) : list NodeRef :=
  let 'NT i chd := t in
  i :: concat ((λ e, top_down e.2) <$> chd).

Fixpoint bottom_up (t : NTree) : list NodeRef :=
  let 'NT i chd := t in
  concat ((λ e, bottom_up e.2) <$> chd) ++ [i].

Inductive Hook : Type := HookAttach | HookDetach | HookInterest.

(** The world: the node objects that are roots of a subtree of their own,
    the next free identity, the prefix each root is bound at, the handler
    table of the engines, and the hooks the nodes have run. *)
Record BaseWorld : Type := mkWorld {
  objects : gmap NodeRef NTree;
  next_id : NodeRef;
  attachedPrefix : gmap NodeRef Name;
  handlers : list (EngRef * Name);
  hooks : list (NodeRef * Hook)
}.

Definition run_hooks (h : Hook) (ns : list NodeRef) (w : BaseWorld) : BaseWorld :=
  mkWorld (objects w) (next_id w) (attachedPrefix w) (handlers w)
          (hooks w ++ ((λ n, (n, h)) <$> ns)).

Definition subtree (r : NodeRef) (w : BaseWorld) : NTree :=
  default (NT r []) (objects w !! r).

(** The error of the engine for "an equal or covering prefix exists". *)
Definition DuplicatePrefix : error := errorString "DuplicatePrefix".
Definition AlreadyExists : error := errorString "AlreadyExists".

(** Modelled from the spec: the methods of BaseNode and of the engine.
    [Attach] "binds the root at prefix" and "walks the tree depth-first
    invoking OnAttach ... on each node"; [Detach] "invokes OnDetach on every
    node in bottom-up order"; a BaseNode has no behaviour of its own, so its
    hooks only leave their mark; [AttachHandler] "rejects with
    DuplicatePrefix if an equal or covering prefix exists" and
    [DetachHandler] "removes it".  The specification is silent on
    [PutNode] of nil or of a node the world does not hold: nothing is
    installed then. *)
#[global] Instance BaseWorld_World : World BaseWorld := {
  node_SetAttachedPrefix r prefix w :=
    (None, mkWorld (objects w) (next_id w) (<[r := prefix]> (attachedPrefix w))
                   (handlers w) (hooks w));
  node_AttachedPrefix r w := default [] (attachedPrefix w !! r);
  node_OnAttach r path engine w :=
    (None, run_hooks HookAttach (top_down (subtree r w)) w);
  node_OnDetach r w := run_hooks HookDetach (bottom_up (subtree r w)) w;
  node_Match r name w := (Match_from name (subtree r w) ∅, w);
  node_OnInterest n args matching w := run_hooks HookInterest [n] w;
  node_At r path w := At_from path (subtree r w);
  node_PutNode r path node w :=
    match node ≫= (λ n, objects w !! n) with
    | None => (None, w)
    | Some sub =>
        match put path sub (next_id w) (subtree r w) with
        | None => (Some AlreadyExists, w)
        | Some (t', fresh') =>
            (None, mkWorld (<[r := t']> (objects w)) fresh' (attachedPrefix w)
                           (handlers w) (hooks w))
        end
    end;
  node_Init n parent edge w := w;
  new_BaseNode w :=
    (next_id w,
     mkWorld (<[next_id w := NT (next_id w) []]> (objects w)) (S (next_id w))
             (attachedPrefix w) (handlers w) (hooks w));
  engine_AttachHandler e prefix h w :=
    if bool_decide (Exists (λ x, x.1 = e ∧ x.2 `prefix_of` prefix) (handlers w))
    then (Some DuplicatePrefix, w)
    else (None, mkWorld (objects w) (next_id w) (attachedPrefix w)
                        (handlers w ++ [(e, prefix)]) (hooks w));
  engine_DetachHandler e prefix w :=
    (None, mkWorld (objects w) (next_id w) (attachedPrefix w)
                   (filter (λ x, x ≠ (e, prefix)) (handlers w)) (hooks w))
}.

End BaseNodes.

(* ===================================================================== *)
(** * Examples                                                            *)
(* ===================================================================== *)

Module Examples.
Import Encoding Schema BaseNodes.

(** Three arrays and a Wire of views into them. *)
Definition mem3 : Mem :=
  [ ["a"; "b"; "c"; "d"]%byte; ["e"; "f"]%byte; ["g"; "h"; "i"]%byte ].

Definition wire3 : Wire :=
  [ mkBuffer (Arr 0) 1 2; mkBuffer (Arr 1) 0 2; mkBuffer (Arr 2) 0 3 ].

(** A generic name component (type 8) and a version component (type 54). *)
Definition generic (s : string) : Component :=
  mkComponent 8%N (String.list_byte_of_string s).

Definition version (b : byte) : Component := mkComponent 54%N [b].

Definition digest32 : list byte := replicate 32 "x"%byte.

(** The prefix of the example producer, [/example/testApp]. *)
Definition prefix0 : Name := [generic "example"; generic "testApp"].

(** The tree of the example producer, [/randomData/<v=time>], with a
    second, unconstrained slot put in after the first. *)
Definition tree0 : NTree :=
  NT 0 [ (CP_Component (generic "randomData"),
          NT 1 [ (CP_Pattern (Some 54%N) "time", NT 2 []);
                 (CP_Pattern None "other", NT 3 []) ]) ].

Definition world0 : BaseWorld :=
  mkWorld {[ 0 := tree0 ]} 4 ∅ [] [].

(** A Tree with [tree0] at its root, attached to nothing. *)
Definition state0 : State := mkState (mkTree (Some 0) None) world0 [].

(** A Tree without a root, in a world with one loose node, 7. *)
Definition world_empty : BaseWorld := mkWorld {[ 7 := NT 7 [] ]} 8 ∅ [] [].
Definition state_empty : State := mkState (mkTree None None) world_empty [].

Definition name_v : Name := [generic "randomData"; version "d"].

Definition args_of (name : Name) : InterestArgs :=
  mkArgs (mkInterest name 0) [] [] 0 0.

(** Interests before, during and after an attachment at the empty prefix. *)
Definition ops0 : list Op :=
  [ OpInterest 0 (args_of name_v); OpAttach [] (Some 0);
    OpInterest 0 (args_of name_v); OpDetach; OpInterest 0 (args_of name_v) ].

End Examples.

(* ===================================================================== *)
(** * Further operations: writes through a slice, error chains, and
      sequences of Tree methods                                           *)
(* ===================================================================== *)

Module EncodingOps.
Import Encoding.

(** [b[i] = x], with Go's bounds check: [None] is the panic. *)
Definition set_byte (b : Buffer) (i : nat) (x : byte) (m : Mem) : option Mem :=
  if decide (i < len b) then Some (store m (ptr b) (off b + i) [x]) else None.

(** The error a chain of [Unwrap()]s ends in, which is what a caller that
    unwraps until nil is left with. *)
Fixpoint root_cause (e : error) : error :=
  match e with
  | ErrFailToParse _ (Some e') => root_cause e'
  | ErrUnexpected (Some e') => root_cause e'
  | _ => e
  end.

(** A string of decimal digits, as [%d] prints them. *)
Fixpoint digits (s : string) : Prop :=
  match s with
  | "" => True
  | String a s' => (∃ x, a = pretty_N_char x) ∧ digits s'
  end.

End EncodingOps.

Module TreeRuns.
Import Encoding Schema.

Section Methods.

Context {W : Type} `{!World W}.

(** A call of one of the Tree's methods with its arguments. *)
Inductive Method : Type :=
  | MAttach (prefix : Name) (engine : option EngRef)
  | MDetach
  | MMatch (name : Name)
  | MintHandler (args : InterestArgs)
  | MAt (path : NamePattern)
  | MPutNode (path : NamePattern) (node : option NodeRef).

(** The call, its result dropped. *)
Definition exec (c : Method) : M (@State W) unit :=
  match c with
  | MAttach prefix engine => _ ← Attach prefix engine; mret ()
  | MDetach => Detach
  | MMatch name => _ ← Match name; mret ()
  | MintHandler args => intHandler args
  | MAt path => _ ← At path; mret ()
  | MPutNode path node => _ ← PutNode path node; mret ()
  end.

(** Calls one after the other; a panic ends the sequence. *)
Fixpoint execs (cs : list Method) : M (@State W) unit :=
  match cs with
  | [] => mret ()
  | c :: cs' => exec c;; execs cs'
  end.

End Methods.

(** What has to come right before a call in the record of calls: an
    [OnDetach] follows the [DetachHandler] of its [Detach]; a registration
    follows an [OnAttach] that returned no error and was given the same
    engine; an [OnInterest] follows the [Match] that returned its node. *)
Definition follows (prev : option Call) (c : Call) : Prop :=
  match c with
  | CallOnDetach _ =>
      match prev with
      | Some (CallDetachHandler _ _ _) => True
      | _ => False
      end
  | CallAttachHandler e prefix _ _ =>
      match prev with
      | Some (CallOnAttach _ path engine None) =>
          engine = Some e ∧ path = CP_Component <$> prefix
      | _ => False
      end
  | CallOnInterest n _ _ =>
      match prev with
      | Some (CallMatch _ _ (node, _)) => node = Some n
      | _ => False
      end
  | _ => True
  end.

(** Every call of a record follows what has to come before it. *)
Fixpoint ordered (prev : option Call) (cs : list Call) : Prop :=
  match cs with
  | [] => True
  | c :: cs' => follows prev c ∧ ordered (Some c) cs'
  end.

(** The call a record ends in, or what came before the record. *)
Definition last_call (prev : option Call) (tr : list Call) : option Call :=
  match last tr with
  | Some c => Some c
  | None => prev
  end.

End TreeRuns.

Module MoreExamples.
Import Encoding Schema BaseNodes Examples.

(** The example tree in a world where another handler already holds the
    example prefix on engine 0. *)
Definition world_taken : BaseWorld :=
  mkWorld {[ 0 := tree0 ]} 4 ∅ [(0, prefix0)] [].

Definition state_taken : State := mkState (mkTree (Some 0) None) world_taken [].

(** Calls of every method, some of them out of place. *)
Definition methods0 : list TreeRuns.Method :=
  [ TreeRuns.MDetach; TreeRuns.MPutNode [] (Some 7);
    TreeRuns.MAttach [] (Some 0); TreeRuns.MintHandler (args_of name_v);
    TreeRuns.MAt [CP_Component (generic "randomData")];
    TreeRuns.MMatch name_v; TreeRuns.MDetach; TreeRuns.MDetach;
    TreeRuns.MAttach prefix0 (Some 0) ].

End MoreExamples.

Import Encoding Examples.

(* ===================================================================== *)
(** * Properties of Wire.Join                                             *)
(* ===================================================================== *)

Section JoinFacts.

Implicit Types (m : Mem) (w : Wire) (v b : Buffer).

Lemma total_len_app w1 w2 : total_len (w1 ++ w2) = total_len w1 + total_len w2.
Proof. induction w1 as [|v w1 IH]; simpl; [done | rewrite IH; lia]. Qed.

Lemma sum_loop_total_len w k :
  foldl (λ n v, n + len v) k w = k + total_len w.
Proof.
  revert k. induction w as [|v w IH]; intros k; simpl; [lia|].
  rewrite IH. lia.
Qed.

Lemma bytes_of_length m v : valid m v → length (bytes_of m v) = len v.
Proof.
  unfold valid, bytes_of. intros Hv.
  rewrite length_take, length_drop. lia.
Qed.

Lemma concat_bytes_length m w :
  Forall (valid m) w → length (concat (bytes_of m <$> w)) = total_len w.
Proof.
  induction 1 as [|v w Hv _ IH]; [done|].
  rewrite fmap_cons. cbn [concat total_len foldr].
  rewrite length_app, bytes_of_length by done. unfold total_len in IH. lia.
Qed.

(** Allocation leaves the bytes of every slice that was well formed before
    it unchanged. *)
Lemma bytes_of_alloc m arr v :
  valid m v → bytes_of (m ++ [arr]) v = bytes_of m v.
Proof.
  unfold valid, bytes_of, load. intros Hv.
  destruct (ptr v) as [| |i]; try done.
  destruct (m !! i) as [a|] eqn:Hi.
  - by rewrite (lookup_app_l_Some _ _ _ _ Hi).
  - simpl in Hv. assert (len v = 0) as -> by lia. done.
Qed.

Lemma valid_alloc m arr v : valid m v → valid (m ++ [arr]) v.
Proof.
  unfold valid, load. intros Hv.
  destruct (ptr v) as [| |i]; try done.
  destruct (m !! i) as [a|] eqn:Hi.
  - by rewrite (lookup_app_l_Some _ _ _ _ Hi).
  - simpl in Hv. lia.
Qed.

(** One [copy] into the fresh array: the filled part grows by the bytes of
    the source. *)
Lemma copy_into_fresh m n bp data v :
  valid m v → length data = bp → bp + len v ≤ n →
  copy (mkBuffer (Arr (length m)) bp (n - bp)) v
       (m ++ [data ++ replicate (n - bp) Byte.x00])
  = (len v,
     m ++ [(data ++ bytes_of m v) ++ replicate (n - (bp + len v)) Byte.x00]).
Proof.
  intros Hv Hd Hle. unfold copy, store. simpl.
  replace ((n - bp) `min` len v) with (len v) by lia.
  rewrite bytes_of_alloc by done.
  rewrite (take_ge (bytes_of m v)) by (rewrite bytes_of_length; done).
  rewrite lookup_app_r, Nat.sub_diag by done. simpl.
  f_equal.
  rewrite take_app_length' by done.
  rewrite bytes_of_length by done.
  rewrite drop_app_ge by lia.
  rewrite drop_replicate.
  replace (n - bp - (bp + len v - length data)) with (n - (bp + len v)) by lia.
  rewrite <- (Nat.add_0_r (length m)) at 1.
  rewrite insert_app_r. simpl. by rewrite <- app_assoc.
Qed.

Lemma Join_step_fresh m n bp data v :
  valid m v → length data = bp → bp + len v ≤ n →
  Join_step (mkBuffer (Arr (length m)) 0 n)
            (Some (bp, m ++ [data ++ replicate (n - bp) Byte.x00])) v
  = Some (bp + len v,
          m ++ [(data ++ bytes_of m v)
                ++ replicate (n - (bp + len v)) Byte.x00]).
Proof.
  intros Hv Hd Hle. unfold Join_step, slice_from. cbn [mbind option_bind len].
  rewrite decide_True by lia. cbn [mbind option_bind ptr off len Nat.add].
  by rewrite copy_into_fresh.
Qed.

Lemma Join_loop m n rest : ∀ data bp,
  Forall (valid m) rest → length data = bp → bp + total_len rest ≤ n →
  foldl (Join_step (mkBuffer (Arr (length m)) 0 n))
        (Some (bp, m ++ [data ++ replicate (n - bp) Byte.x00])) rest
  = Some (bp + total_len rest,
          m ++ [(data ++ concat (bytes_of m <$> rest))
                ++ replicate (n - (bp + total_len rest)) Byte.x00]).
Proof.
  induction rest as [|v rest IH]; intros data bp Hall Hd Hle.
  - cbn. by rewrite Nat.add_0_r, app_nil_r.
  - apply Forall_cons in Hall as [Hv Hall].
    cbn [total_len foldr] in Hle. fold (total_len rest) in Hle.
    cbn [foldl]. rewrite Join_step_fresh by (done || lia).
    rewrite IH; [|done| |lia].
    + rewrite fmap_cons. cbn [concat total_len foldr].
      by rewrite Nat.add_assoc, <- (app_assoc data).
    + rewrite length_app, bytes_of_length by done. lia.
Qed.

(** What [Join] does on a Wire of at least two Buffers. *)
Lemma Join_many m v0 v1 rest :
  Forall (valid m) (v0 :: v1 :: rest) →
  Join (v0 :: v1 :: rest) m
  = Some (mkBuffer (Arr (length m)) 0 (total_len (v0 :: v1 :: rest)),
          m ++ [concat (bytes_of m <$> (v0 :: v1 :: rest))]).
Proof.
  intros Hall. apply Forall_cons in Hall as [H0 Hall].
  unfold Join, make.
  rewrite sum_loop_total_len. rewrite Nat.add_0_l.
  set (n := total_len (v0 :: v1 :: rest)).
  pose proof (copy_into_fresh m n 0 [] v0 H0 eq_refl) as Hc.
  rewrite Nat.sub_0_r in Hc. simpl app in Hc.
  rewrite Hc by (subst n; simpl; lia). clear Hc.
  rewrite (Join_loop m n (v1 :: rest) (bytes_of m v0) (len v0));
    [| done | by apply bytes_of_length | subst n; simpl; lia ].
  simpl. do 3 f_equal.
  replace (n - _) with 0 by (subst n; simpl; lia).
  simpl. by rewrite app_nil_r.
Qed.

End JoinFacts.

Section JoinResults.

Implicit Types (m : Mem) (w : Wire) (v b : Buffer).

(** [Join] returns on every well-formed Wire, and what its result denotes
    in the memory it leaves is the concatenation; the memory is the old one
    or the old one with one more array. *)
Lemma Join_spec m w :
  Forall (valid m) w →
  ∃ b m', Join w m = Some (b, m')
        ∧ bytes_of m' b = concat (bytes_of m <$> w)
        ∧ len b = total_len w
        ∧ valid m' b
        ∧ (m' = m ∨ m' = m ++ [concat (bytes_of m <$> w)]).
Proof.
  intros Hall. destruct w as [|v0 [|v1 rest]].
  - exists empty_lit, m. repeat split; [|by left]. unfold valid; cbn; lia.
  - apply Forall_cons in Hall as [H0 _].
    exists v0, m. repeat split; [|cbn; lia|done|by left].
    cbn. by rewrite app_nil_r.
  - eexists _, _. split; [by apply Join_many|].
    assert (load (m ++ [concat (bytes_of m <$> v0 :: v1 :: rest)])
                 (Arr (length m)) = concat (bytes_of m <$> v0 :: v1 :: rest))
      as Hload.
    { unfold load. by rewrite lookup_app_r, Nat.sub_diag by done. }
    repeat split; [| |by right].
    + unfold bytes_of at 1; cbn [ptr off len]. rewrite Hload.
      rewrite drop_0, take_ge; [done|].
      by rewrite concat_bytes_length.
    + unfold valid; cbn [ptr off len]. rewrite Hload.
      rewrite concat_bytes_length by done. lia.
Qed.

Lemma Join_keeps m w b m' v :
  Forall (valid m) w → Join w m = Some (b, m') → valid m v →
  valid m' v ∧ bytes_of m' v = bytes_of m v.
Proof.
  intros Hall HJ Hv.
  destruct (Join_spec m w Hall) as (b0 & m0 & HJ0 & _ & _ & _ & [->| ->]);
    rewrite HJ in HJ0; injection HJ0 as -> ->; [done|].
  split; [by apply valid_alloc | by apply bytes_of_alloc].
Qed.

Lemma stream_at_concat m w i :
  Forall (valid m) w → concat (bytes_of m <$> w) !! i = stream_at m w i.
Proof.
  intros Hall. revert i. induction Hall as [|v w Hv _ IH]; intros i; [done|].
  rewrite fmap_cons. cbn [concat stream_at].
  case_decide.
  - by rewrite lookup_app_l by (by rewrite bytes_of_length).
  - rewrite lookup_app_r by (rewrite bytes_of_length by done; lia).
    by rewrite bytes_of_length, IH.
Qed.

Lemma bytes_of_sub m v lo hi :
  valid m v → lo ≤ hi → hi ≤ len v →
  bytes_of m (sub v lo hi) = take (hi - lo) (drop lo (bytes_of m v))
  ∧ valid m (sub v lo hi).
Proof.
  unfold valid, bytes_of, sub. cbn [ptr off len]. intros Hv Hlo Hhi.
  split; [|lia].
  replace (len v) with (lo + (len v - lo)) by lia.
  rewrite <- take_drop_commute, drop_drop, take_take.
  f_equal. lia.
Qed.

(** The window [Range_wire] cuts is the window of the stream. *)
Lemma Range_wire_bytes m w :
  Forall (valid m) w → ∀ a e, a ≤ e → e ≤ total_len w →
  concat (bytes_of m <$> Range_wire w a e)
  = take (e - a) (drop a (concat (bytes_of m <$> w)))
  ∧ Forall (valid m) (Range_wire w a e).
Proof.
  induction 1 as [|v w Hv _ IH]; intros a e Hab Hb.
  - cbn in *. by rewrite drop_nil, take_nil.
  - cbn [total_len foldr] in Hb. fold (total_len w) in Hb.
    rewrite fmap_cons. cbn [concat Range_wire].
    pose proof (bytes_of_length m v Hv) as HL.
    repeat case_decide.
    + destruct (IH (a - len v) (e - len v)) as [-> HF]; [lia|lia|].
      split; [|done].
      rewrite drop_app_ge by lia. rewrite HL. f_equal. lia.
    + destruct (bytes_of_sub m v a e Hv) as [Hs Hvs]; [lia|lia|].
      split; [|by repeat constructor].
      rewrite fmap_cons, fmap_nil. cbn [concat]. rewrite app_nil_r, Hs.
      rewrite drop_app_le by lia.
      by rewrite take_app_le by (rewrite length_drop; lia).
    + destruct (bytes_of_sub m v a (len v) Hv) as [Hs Hvs]; [lia|lia|].
      destruct (IH 0 (e - len v)) as [Hr HF]; [lia|lia|].
      split; [|by constructor].
      rewrite fmap_cons. cbn [concat]. rewrite Hs, Hr.
      rewrite drop_app_le by lia.
      rewrite take_app_ge by (rewrite length_drop; lia).
      rewrite length_drop, HL, drop_0, Nat.sub_0_r.
      rewrite (take_ge (drop a _)) by (rewrite length_drop; lia).
      do 2 f_equal. lia.
Qed.

(** Every Buffer of the window is a view into the array of a Buffer of the
    Wire. *)
Lemma Range_wire_shares w : ∀ a e,
  Forall (λ v', ∃ v, v ∈ w ∧ ptr v' = ptr v) (Range_wire w a e).
Proof.
  induction w as [|v w IH]; intros a e; cbn [Range_wire]; [constructor|].
  assert (∀ l, Forall (λ v', ∃ u, u ∈ w ∧ ptr v' = ptr u) l →
               Forall (λ v', ∃ u, u ∈ v :: w ∧ ptr v' = ptr u) l) as Hup.
  { intros l Hl. eapply Forall_impl; [exact Hl|]. intros v' (u & Hu & E).
    exists u. split; [by right|done]. }
  repeat case_decide.
  - apply Hup, IH.
  - constructor; [|constructor]. exists v. split; [by left|done].
  - constructor; [|apply Hup, IH]. exists v. split; [by left|done].
Qed.

End JoinResults.

(* ===================================================================== *)
(** * The claims on package encoding                                      *)
(* ===================================================================== *)

(** C3. For every Wire [w], [w.Join()] returns, and returns the
    concatenation of [w]'s Buffers in order: the length of the result is
    the sum of the lengths of the Buffers, and the byte at global offset
    [i] of the result is the byte at offset [i] of the stream. *)
Theorem Join_is_concatenation (m : Mem) (w : Wire) :
  Forall (valid m) w →
  ∃ b m', Join w m = Some (b, m')
        ∧ bytes_of m' b = concat (bytes_of m <$> w)
        ∧ len b = total_len w
        ∧ length (bytes_of m' b) = total_len w
        ∧ ∀ i, bytes_of m' b !! i = stream_at m w i.
Proof.
  intros Hall.
  destruct (Join_spec m w Hall) as (b & m' & HJ & Hb & Hlen & _ & _).
  exists b, m'. repeat split; try done.
  - by rewrite Hb, concat_bytes_length.
  - intros i. rewrite Hb. by apply stream_at_concat.
Qed.

Lemma Join_is_concatenation_witness :
  ∃ b m', Join wire3 mem3 = Some (b, m')
        ∧ bytes_of m' b = concat (bytes_of mem3 <$> wire3)
        ∧ len b = total_len wire3
        ∧ length (bytes_of m' b) = total_len wire3
        ∧ ∀ i, bytes_of m' b !! i = stream_at mem3 wire3 i.
Proof.
  apply (Join_is_concatenation mem3 wire3).
  unfold wire3, mem3. repeat constructor; unfold valid; simpl; lia.
Defined.



(** C4. For a reader over a non-empty Wire [w] and indices [a ≤ b] within
    its length, [Range(a,b)] leaves the cursor where it is and returns a
    Wire of views into the arrays of [w] whose [Join()] is the slice
    [w.Join()[a..b]] of the joined bytes. *)
Theorem Range_Join_is_slice (m : Mem) (r : ParseReader) (a b : nat) :
  rd_wire r ≠ [] → Forall (valid m) (rd_wire r) →
  a ≤ b → b ≤ Length r →
  ∃ jw m1 jr m2,
    Join (rd_wire r) m = Some (jw, m1)
    ∧ (Range a b r).2 = r
    ∧ Pos (Range a b r).2 = Pos r
    ∧ Join (Range a b r).1 m1 = Some (jr, m2)
    ∧ bytes_of m2 jr = take (b - a) (drop a (bytes_of m1 jw))
    ∧ bytes_of m2 jw = bytes_of m1 jw
    ∧ Forall (λ v', ∃ v, v ∈ rd_wire r ∧ ptr v' = ptr v) (Range a b r).1.
Proof.
  intros _ Hall Hab Hb. unfold Length in Hb. cbn [Range fst snd].
  destruct (Join_spec m _ Hall) as (jw & m1 & HJ & Hjw & Hlen & Hvjw & Hm1).
  destruct (Range_wire_bytes m _ Hall a b Hab Hb) as [HR HRv].
  assert (∀ v, valid m v → valid m1 v ∧ bytes_of m1 v = bytes_of m v) as Hkeep
    by (intros v Hv; exact (Join_keeps m _ jw m1 v Hall HJ Hv)).
  assert (Forall (valid m1) (Range_wire (rd_wire r) a b)) as HRv1.
  { eapply Forall_impl; [exact HRv|]. intros v Hv. by apply Hkeep. }
  destruct (Join_spec m1 _ HRv1) as (jr & m2 & HJr & Hjr & _ & _ & Hm2).
  exists jw, m1, jr, m2. repeat split; try done.
  - rewrite Hjr, Hjw, <- HR. f_equal.
    apply Forall_fmap_ext_1.
    eapply Forall_impl; [exact HRv|]. intros v Hv. by apply Hkeep.
  - by apply (Join_keeps m1 _ jr m2 jw HRv1 HJr).
  - apply Range_wire_shares.
Qed.

Lemma Range_Join_is_slice_witness :
  ∃ jw m1 jr m2,
    Join wire3 mem3 = Some (jw, m1)
    ∧ (Range 1 5 (mkReader wire3 0)).2 = mkReader wire3 0
    ∧ Pos (Range 1 5 (mkReader wire3 0)).2 = 0
    ∧ Join (Range 1 5 (mkReader wire3 0)).1 m1 = Some (jr, m2)
    ∧ bytes_of m2 jr = take (5 - 1) (drop 1 (bytes_of m1 jw))
    ∧ bytes_of m2 jw = bytes_of m1 jw
    ∧ Forall (λ v', ∃ v, v ∈ wire3 ∧ ptr v' = ptr v)
             (Range 1 5 (mkReader wire3 0)).1.
Proof.
  apply (Range_Join_is_slice mem3 (mkReader wire3 0) 1 5).
  - done.
  - unfold wire3, mem3. repeat constructor; unfold valid; simpl; lia.
  - lia.
  - vm_compute. lia.
Defined.

Section ErrorFacts.

Lemma append_nil_r (s : string) : s +:+ "" = s.
Proof.
  induction s as [|a s IH]; [done|].
  change (String a (s +:+ "") = String a s). by rewrite IH.
Qed.

Lemma append_assoc (s1 s2 s3 : string) :
  (s1 +:+ s2) +:+ s3 = s1 +:+ s2 +:+ s3.
Proof.
  induction s1 as [|a s1 IH]; [done|].
  change (String a ((s1 +:+ s2) +:+ s3) = String a (s1 +:+ s2 +:+ s3)).
  by rewrite IH.
Qed.

Lemma Error_ErrFailToParse (t : TLNum) (e : error) :
  Error (ErrFailToParse t (Some e))
  = "Failed to parse field " +:+ fmt_d t +:+ ": " +:+ Error e.
Proof. done. Qed.

End ErrorFacts.

(** C7. For every type number [t] and error [e], the wrapper
    [ErrFailToParse{TypeNum: t, Err: e}] identifies the offending field:
    [Unwrap()] returns exactly [e], and the [Error()] string is
    "Failed to parse field ", [t] in decimal, ": " and the message of [e];
    it contains the number, from which [t] can be read back, and then the
    message. *)
Theorem ErrFailToParse_identifies_field (t : TLNum) (e : error) :
  Unwrap (ErrFailToParse t (Some e)) = Some e
  ∧ Error (ErrFailToParse t (Some e))
    = "Failed to parse field " +:+ fmt_d t +:+ ": " +:+ Error e
  ∧ contains (Error (ErrFailToParse t (Some e))) (fmt_d t)
  ∧ contains (Error (ErrFailToParse t (Some e))) (Error e)
  ∧ (∃ pre mid,
       Error (ErrFailToParse t (Some e)) = pre +:+ fmt_d t +:+ mid +:+ Error e)
  ∧ (∀ t', fmt_d t' = fmt_d t → t' = t).
Proof.
  rewrite Error_ErrFailToParse. repeat split.
  - by exists "Failed to parse field ", (": " +:+ Error e).
  - exists ("Failed to parse field " +:+ fmt_d t +:+ ": "), "".
    by rewrite append_nil_r, !append_assoc.
  - by exists "Failed to parse field ", ": ".
  - intros t' E. by apply (inj pretty) in E.
Qed.

(* ===================================================================== *)
(** * Properties of the schema Tree                                       *)
(* ===================================================================== *)

Import Schema.

(** Unfolds the monad of the Tree's methods down to the calls. *)
Ltac unfold_M :=
  repeat progress
    (unfold mbind, mret, M_bind, M_ret, gets, raise, deref, invoke_, invoke,
       log, setEngine, setRoot, compose, id in *;
     cbn [tree world calls Root Engine] in *).

Section TreeFacts.

Context {W : Type} `{!World W}.

Implicit Types (s : @State W) (prefix name : Name).

(** The loop of [Attach] turns each component into the literal pattern of
    itself. *)
Lemma fill_path_app (cs : Name) : ∀ (done : NamePattern) (rest : NamePattern),
  length rest = length cs →
  fill_path (length done) cs (done ++ rest) = done ++ (CP_Component <$> cs).
Proof.
  induction cs as [|c cs IH]; intros done rest Hlen.
  - destruct rest; [done|discriminate].
  - destruct rest as [|p rest]; [discriminate|]. cbn [fill_path].
    rewrite <- (Nat.add_0_r (length done)) at 2.
    rewrite insert_app_r. cbn [insert list_insert].
    rewrite (cons_middle _ done), app_assoc.
    replace (S (length done)) with (length (done ++ [CP_Component c]))
      by (rewrite length_app; cbn; lia).
    rewrite IH by (cbn in Hlen; lia).
    by rewrite <- app_assoc.
Qed.

Lemma make_path_literals prefix : make_path prefix = CP_Component <$> prefix.
Proof.
  unfold make_path.
  apply (fill_path_app prefix [] (replicate (length prefix) CP_nil)).
  by rewrite length_replicate.
Qed.

(** Every outcome of [Attach] that is not a panic. *)
Lemma Attach_Done prefix engine s res s' :
  Attach prefix engine s = Done res s' →
  ∃ r, Root (tree s) = Some r ∧
  let path := CP_Component <$> prefix in
  match res with
  | None =>
      ∃ e w1 w2,
        engine = Some e
        ∧ node_SetAttachedPrefix r prefix (world s) = (None, w1)
        ∧ node_OnAttach r path engine w1 = (None, w2)
        ∧ engine_AttachHandler e prefix Tree_intHandler w2 = (None, world s')
        ∧ calls s' = calls s ++
            [ CallSetAttachedPrefix r prefix None;
              CallOnAttach r path engine None;
              CallAttachHandler e prefix Tree_intHandler None;
              CallLog Info "Attached to engine." ]
        ∧ tree s' = mkTree (Some r) engine
  | Some err =>
      tree s' = tree s
      ∧ ( calls s' = calls s ++ [ CallSetAttachedPrefix r prefix (Some err) ]
        ∨ calls s' = calls s ++
            [ CallSetAttachedPrefix r prefix None;
              CallOnAttach r path engine (Some err) ]
        ∨ ∃ e, engine = Some e ∧ calls s' = calls s ++
            [ CallSetAttachedPrefix r prefix None;
              CallOnAttach r path engine None;
              CallAttachHandler e prefix Tree_intHandler (Some err) ] )
  end.
Proof.
  unfold Attach. rewrite make_path_literals.
  destruct s as [[root eng] w cs]. intros HA. unfold_M.
  destruct root as [r|]; [|done]. unfold_M.
  exists r. split; [done|]. cbn zeta.
  destruct (node_SetAttachedPrefix r prefix w) as [[e1|] w1] eqn:E1; unfold_M.
  { injection HA as <- <-. cbn. split; [done|]. by left. }
  destruct (node_OnAttach r _ engine w1) as [[e2|] w2] eqn:E2; unfold_M.
  { injection HA as <- <-. cbn. split; [done|]. right; left.
    by rewrite <- app_assoc. }
  destruct engine as [e|]; [|done]. unfold_M.
  destruct (engine_AttachHandler e prefix Tree_intHandler w2)
    as [[e3|] w3] eqn:E3; unfold_M.
  { injection HA as <- <-. cbn. split; [done|]. right; right.
    exists e. split; [done|]. by rewrite <- !app_assoc. }
  injection HA as <- <-. cbn.
  exists e, w1, w2. repeat split; try done.
  by rewrite <- !app_assoc.
Qed.

End TreeFacts.

Section LifeCycle.

Context {W : Type} `{!World W}.

Implicit Types (s : @State W) (cs ext : list Call) (ph : Phase).

Lemma scan_app o cs ext : scan o (cs ++ ext) = scan (scan o cs) ext.
Proof. unfold scan. by rewrite foldl_app. Qed.

Lemma scan_None cs : scan None cs = None.
Proof. induction cs as [|c cs IH]; [done|]. exact IH. Qed.

Lemma scan_snoc o cs c : scan o (cs ++ [c]) = ph ← scan o cs; advance ph c.
Proof. by rewrite scan_app. Qed.

Lemma phase_reached_snoc ph cs c : phase_reached ph cs → phase_reached ph (cs ++ [c]).
Proof.
  destruct ph; cbn; [done| |].
  - intros (j & cj & Hj & ?). exists j, cj. split; [|done].
    by apply lookup_app_l_Some.
  - intros (j & k & cj & ck & ? & Hj & ? & Hk & ?).
    exists j, k, cj, ck. repeat split; try done; by apply lookup_app_l_Some.
Qed.

Lemma scan_sound cs : ∀ ph,
  scan (Some Fresh) cs = Some ph →
  phase_reached ph cs ∧ interests_after_attach cs.
Proof.
  induction cs as [|c cs IH] using rev_ind; intros ph Hs.
  - cbn in Hs. injection Hs as <-. split; [done|]. intros i c Hi. done.
  - rewrite scan_snoc in Hs.
    destruct (scan (Some Fresh) cs) as [ph0|] eqn:E0; [|done].
    cbn [mbind option_bind] in Hs.
    destruct (IH ph0 eq_refl) as [Hph0 Hint].
    assert ((cs ++ [c]) !! length cs = Some c) as Hlast
      by (by rewrite lookup_app_r, Nat.sub_diag by done).
    split.
    + (* the phase reached *)
      destruct c as [ | |r0 path0 eng0 ret0| | |n0 args0 m0| | | | |e0 p0 h0 ret0|e0 p0 ret0| ]; cbn in Hs;
        try (injection Hs as <-; by apply phase_reached_snoc).
      * (* OnAttach *)
        destruct ret0; [injection Hs as <-; by apply phase_reached_snoc|].
        destruct ph0; injection Hs as <-; try by apply phase_reached_snoc.
        exists (length cs), (CallOnAttach r0 path0 eng0 None).
        split; [done|]. by eexists _, _, _.
      * (* OnInterest *)
        destruct ph0; [done|done|]. injection Hs as <-.
        by apply phase_reached_snoc.
      * (* AttachHandler *)
        destruct ret0; [injection Hs as <-; by apply phase_reached_snoc|].
        assert (∃ j cj, cs !! j = Some cj ∧ is_OnAttach_ok cj)
          as (j & cj & Hj & Hcj).
        { destruct ph0; [done|exact Hph0|].
          destruct Hph0 as (j & _ & cj & _ & _ & Hj & Hcj & _). by exists j, cj. }
        assert (ph = Serving) as -> by (destruct ph0; simplify_eq; done).
        exists j, (length cs), cj, (CallAttachHandler e0 p0 h0 None).
        repeat split; try done.
        -- by apply lookup_lt_Some in Hj.
        -- by apply lookup_app_l_Some.
        -- by eexists _, _, _.
    + (* every OnInterest comes late enough *)
      intros i c' Hi Hc'.
      destruct (decide (i < length cs)) as [Hlt|Hge].
      * rewrite lookup_app_l in Hi by done.
        destruct (Hint i c' Hi Hc') as (j & k & cj & ck & ? & ? & Hj & ? & Hk & ?).
        exists j, k, cj, ck. repeat split; try done; by apply lookup_app_l_Some.
      * assert (i = length cs) as ->.
        { apply lookup_lt_Some in Hi. rewrite length_app in Hi. cbn in Hi. lia. }
        rewrite Hlast in Hi. injection Hi as <-.
        destruct Hc' as (n & args & m & ->). cbn in Hs.
        destruct ph0; [done|done|].
        destruct Hph0 as (j & k & cj & ck & ? & Hj & ? & Hk & ?).
        exists j, k, cj, ck. repeat split; try done.
        -- by apply lookup_lt_Some in Hk.
        -- by apply lookup_app_l_Some.
        -- by apply lookup_app_l_Some.
Qed.

(** While a handler is registered, the record is in its last phase. *)
Lemma registered_Serving cs : ∀ ph0 ph acc,
  scan (Some ph0) cs = Some ph →
  (acc ≠ [] → ph0 = Serving) →
  registered cs acc ≠ [] → ph = Serving.
Proof.
  induction cs as [|c cs IH]; intros ph0 ph acc Hs Hacc Hreg.
  - cbn in *. injection Hs as <-. by apply Hacc.
  - change (scan (Some ph0) (c :: cs)) with (scan (advance ph0 c) cs) in Hs.
    destruct (advance ph0 c) as [ph1|] eqn:E1; [|by rewrite scan_None in Hs].
    assert (ph0 = Serving → ph1 = Serving) as Hkeep.
    { intros ->. destruct c as [ | |r0 path0 eng0 ret0| | |n0 args0 m0| | | | |e0 p0 h0 ret0|e0 p0 ret0| ];
        cbn in E1; try destruct ret0; by simplify_eq. }
    destruct c as [ | |r0 path0 eng0 ret0| | |n0 args0 m0| | | | |e0 p0 h0 ret0|e0 p0 ret0| ];
      cbn [registered] in Hreg;
      try (apply (IH ph1 ph acc Hs); [by auto | exact Hreg]).
    + (* AttachHandler *)
      destruct ret0.
      * apply (IH ph1 ph acc Hs); [by auto | exact Hreg].
      * eapply (IH ph1 ph); [exact Hs| |exact Hreg].
        intros _. cbn in E1. destruct ph0; by simplify_eq.
    + (* DetachHandler *)
      eapply (IH ph1 ph); [exact Hs| |exact Hreg].
      intros Hne. apply Hkeep, Hacc. intros ->. by apply Hne.
Qed.

End LifeCycle.

(** Splits on the innermost scrutinee in the goal, after unfolding the
    monad. *)
Ltac split_M :=
  repeat (unfold_M; cbn [final];
          match goal with
          | |- context [match ?x with _ => _ end] =>
              lazymatch x with
              | context [match _ with _ => _ end] => fail
              | _ => destruct x eqn:?
              end
          end);
  unfold_M; cbn [final calls].

Section Runs.

Context {W : Type} `{!World W}.

Implicit Types (s : @State W) (cs ext : list Call) (ph : Phase).

(** What is left to show once a method is unfolded: the calls it added are
    in order after those made before. *)
Ltac scan_leaf Hs :=
  rewrite ?scan_app, ?Hs;
  try match goal with ph : Phase |- _ => destruct ph end;
  cbn; eauto.

Lemma Attach_scan prefix engine s ph :
  scan (Some Fresh) (calls s) = Some ph →
  ∃ ph', scan (Some Fresh) (calls (final (Attach prefix engine s))) = Some ph'.
Proof.
  intros Hs. destruct s as [[root eng] w cs]. cbn [calls] in Hs.
  unfold Attach. split_M; scan_leaf Hs.
Qed.

Lemma Detach_scan s ph :
  scan (Some Fresh) (calls s) = Some ph →
  ∃ ph', scan (Some Fresh) (calls (final (Detach s))) = Some ph'.
Proof.
  intros Hs. destruct s as [[root eng] w cs]. cbn [calls] in Hs.
  unfold Detach. split_M; scan_leaf Hs.
Qed.

Lemma PutNode_scan path node s ph :
  scan (Some Fresh) (calls s) = Some ph →
  ∃ ph', scan (Some Fresh) (calls (final (PutNode path node s))) = Some ph'.
Proof.
  intros Hs. destruct s as [[root eng] w cs]. cbn [calls] in Hs.
  unfold PutNode. split_M; scan_leaf Hs.
Qed.

Lemma Match_scan name s ph :
  scan (Some Fresh) (calls s) = Some ph →
  ∃ ph', scan (Some Fresh) (calls (final (Match name s))) = Some ph'.
Proof.
  intros Hs. destruct s as [[root eng] w cs]. cbn [calls] in Hs.
  unfold Match. split_M; scan_leaf Hs.
Qed.

Lemma intHandler_scan args s :
  scan (Some Fresh) (calls s) = Some Serving →
  scan (Some Fresh) (calls (final (intHandler args s))) = Some Serving.
Proof.
  intros Hs. destruct s as [[root eng] w cs]. cbn [calls] in Hs.
  unfold intHandler, ends_with_digest, index, slice_to.
  split_M; rewrite ?scan_app, ?Hs; done.
Qed.

Lemma deliver_scan e args s ph :
  scan (Some Fresh) (calls s) = Some ph →
  ∃ ph', scan (Some Fresh) (calls (final (deliver e args s))) = Some ph'.
Proof.
  intros Hs. unfold deliver. unfold_M.
  case_bool_decide as Hreg; [|by eauto].
  assert (ph = Serving) as ->.
  { eapply (registered_Serving _ Fresh ph []); [exact Hs|done|].
    intros E. rewrite E in Hreg. by apply Exists_nil in Hreg. }
  exists Serving. by apply intHandler_scan.
Qed.

Lemma step_scan op s ph :
  scan (Some Fresh) (calls s) = Some ph →
  ∃ ph', scan (Some Fresh) (calls (final (step op s))) = Some ph'.
Proof.
  intros Hs. destruct op as [prefix engine| |path node|name|e args]; cbn [step].
  - destruct (Attach_scan prefix engine s ph Hs) as [ph' H'].
    exists ph'. unfold_M. by destruct (Attach prefix engine s).
  - by eapply Detach_scan.
  - destruct (PutNode_scan path node s ph Hs) as [ph' H'].
    exists ph'. unfold_M. by destruct (PutNode path node s).
  - destruct (Match_scan name s ph Hs) as [ph' H'].
    exists ph'. unfold_M. by destruct (Match name s).
  - by eapply deliver_scan.
Qed.

Lemma run_scan ops : ∀ s ph,
  scan (Some Fresh) (calls s) = Some ph →
  ∃ ph', scan (Some Fresh) (calls (final (run ops s))) = Some ph'.
Proof.
  induction ops as [|op ops IH]; intros s ph Hs; [by exists ph|].
  cbn [run]. destruct (step_scan op s ph Hs) as [ph1 H1].
  unfold_M. destruct (step op s) as [[] s1|p s1]; cbn [final] in *.
  - by eapply IH.
  - by exists ph1.
Qed.

(** From a Tree on which nothing has been called yet, whatever is done to
    it, no node is handed an Interest before [OnAttach] has returned without
    error and the handler has been registered after that. *)
Lemma run_interests_after_attach ops s :
  calls s = [] → interests_after_attach (calls (final (run ops s))).
Proof.
  intros Hnil.
  destruct (run_scan ops s Fresh) as [ph Hph]; [by rewrite Hnil|].
  by apply scan_sound in Hph as [_ ?].
Qed.

End Runs.

(* ===================================================================== *)
(** * The claims on package schema                                        *)
(* ===================================================================== *)

Import BaseNodes Examples.

Section TreeClaims.

Context {W : Type} `{!World W}.

Implicit Types (s : @State W) (prefix name : Name).

(** [Detach] never touches the fields of the Tree: [t.Engine] stays
    set. *)
Lemma Detach_keeps_tree s s' : Detach s = Done () s' → tree s' = tree s.
Proof.
  destruct s as [[root eng] w cs]. unfold Detach. intros HD.
  unfold_M. destruct eng as [e|]; unfold_M; [|by injection HD as <-].
  destruct root as [r|]; unfold_M; [|done].
  destruct (engine_DetachHandler e _ w) as [a w1] eqn:E1; unfold_M.
  by injection HD as <-.
Qed.

(** On a Tree that was never attached [Detach] does nothing. *)
Lemma Detach_unattached s : Engine (tree s) = None → Detach s = Done () s.
Proof.
  destruct s as [[root eng] w cs]. cbn [tree Engine]. intros ->.
  unfold Detach. by unfold_M.
Qed.

(** On a Tree whose [Engine] field is set, [Detach] unregisters the
    handler at the root's prefix and then calls [OnDetach] on the root;
    the Tree's fields stay as they are, so every further [Detach] does the
    same again. *)
Lemma Detach_attached s r e ret w1 :
  Root (tree s) = Some r → Engine (tree s) = Some e →
  engine_DetachHandler e (node_AttachedPrefix r (world s)) (world s)
    = (ret, w1) →
  Detach s
  = Done () (mkState (tree s) (node_OnDetach r w1)
               (calls s ++
                  [ CallLog Info "Detached from engine";
                    CallAttachedPrefix r (node_AttachedPrefix r (world s));
                    CallDetachHandler e (node_AttachedPrefix r (world s)) ret;
                    CallOnDetach r ])).
Proof.
  destruct s as [[root eng] w cs]. cbn [tree world calls Root Engine].
  intros -> -> HD. unfold Detach. unfold_M. rewrite HD. unfold_M.
  by rewrite <- !app_assoc.
Qed.

Lemma index_last {A} (init : list A) (c : A) s :
  index (init ++ [c]) (Z.of_nat (length (init ++ [c])) - 1) s = Done c s.
Proof.
  unfold index. rewrite length_app. cbn [length].
  rewrite decide_True by lia.
  replace (Z.to_nat _) with (length init + 0) by lia.
  by rewrite lookup_app_r, Nat.add_sub' by lia.
Qed.

Lemma slice_to_last {A} (init : list A) (c : A) s :
  slice_to (init ++ [c]) (Z.of_nat (length (init ++ [c])) - 1) s = Done init s.
Proof.
  unfold slice_to. rewrite length_app. cbn [length].
  rewrite decide_True by lia.
  replace (Z.to_nat _) with (length init) by lia.
  by rewrite take_app_length.
Qed.


(** C5. [PutNode] with an empty path fails with the already-exists error
    and changes nothing when the Tree has a root, and installs the node as
    the root when it has none; with a non-empty path and no root it
    creates a BaseNode, makes it the root, initialises it and then hands
    the installation to the root's [PutNode]; with a root it hands it over
    at once. *)
Theorem PutNode_cases (path : NamePattern) (node : option NodeRef) s :
  (path = [] → ∀ r, Root (tree s) = Some r →
     PutNode path node s
     = Done (Some (errorString "schema node already exists")) s)
  ∧ (path = [] → Root (tree s) = None →
     PutNode path node s
     = Done None (mkState (mkTree node (Engine (tree s))) (world s) (calls s)))
  ∧ (path ≠ [] → Root (tree s) = None →
     ∀ r w1 err w3,
       new_BaseNode (world s) = (r, w1) →
       node_PutNode r path node (node_Init r None CP_nil w1) = (err, w3) →
       PutNode path node s
       = Done err (mkState (mkTree (Some r) (Engine (tree s))) w3
                     (calls s ++ [ CallNewBaseNode r;
                                   CallInit r None CP_nil;
                                   CallPutNode r path node err ])))
  ∧ (path ≠ [] → ∀ r, Root (tree s) = Some r →
     ∀ err w1,
       node_PutNode r path node (world s) = (err, w1) →
       PutNode path node s
       = Done err (mkState (tree s) w1
                     (calls s ++ [ CallPutNode r path node err ]))).
Proof.
  destruct s as [[root eng] w cs]. cbn [tree world calls Root Engine].
  unfold PutNode. repeat split.
  - intros -> r ->. by unfold_M.
  - intros -> ->. by unfold_M.
  - intros Hne -> r w1 err w3 Hnew Hput. unfold_M.
    rewrite decide_False by (by destruct path).
    unfold_M. rewrite Hnew. unfold_M. rewrite Hput.
    by rewrite <- !app_assoc.
  - intros Hne r -> err w1 Hput. unfold_M.
    rewrite decide_False by (by destruct path).
    unfold_M. by rewrite Hput.
Qed.

(** C8. When the name of an Interest ends in a ParametersSha256Digest or
    ImplicitSha256Digest component, [intHandler] matches the name without
    that component against the root; if a node matches, that node's
    [OnInterest] is called with the matching extended by the component's
    value under "params-sha256" or "sha256digest"; if none matches the
    Interest is dropped with a warning and no [OnInterest] is called. *)
Theorem intHandler_digest (args : InterestArgs) s (init : Name) (c : Component)
    (r : NodeRef) (node : option NodeRef) (matching : Matching) (w1 : W) :
  int_Name (interest args) = init ++ [c] →
  Typ c = TypeParametersSha256DigestComponent
    ∨ Typ c = TypeImplicitSha256DigestComponent →
  Root (tree s) = Some r →
  node_Match r init (world s) = ((node, matching), w1) →
  let key := if decide (Typ c = TypeParametersSha256DigestComponent)
             then "params-sha256" else "sha256digest" in
  let matching' := <[key := Val c]> matching in
  intHandler args s =
    match node with
    | Some n =>
        Done () (mkState (tree s) (node_OnInterest n args matching' w1)
                   (calls s ++ [ CallMatch r init (node, matching);
                                 CallOnInterest n args matching' ]))
    | None =>
        Done () (mkState (tree s) w1
                   (calls s ++ [ CallMatch r init (node, matching);
                                 CallLog Warn "Unexpected Interest. Drop." ]))
    end.
Proof.
  intros Hname Htyp Hroot HM.
  destruct s as [[root eng] w cs]. cbn [tree world calls Root Engine] in *.
  subst root. unfold intHandler, ends_with_digest, last_index.
  rewrite Hname. unfold_M. rewrite !index_last.
  assert (add_digest c matching
          = <[(if decide (Typ c = TypeParametersSha256DigestComponent)
               then "params-sha256" else "sha256digest") := Val c]> matching)
    as Hadd.
  { unfold add_digest. destruct Htyp as [E|E]; rewrite E; by cbn. }
  destruct (decide (Typ c = TypeParametersSha256DigestComponent)) as [E|NE].
  - unfold_M. rewrite index_last, slice_to_last. unfold_M.
    rewrite HM. unfold_M. destruct node as [n|]; unfold_M.
    + by rewrite Hadd, <- !app_assoc.
    + by rewrite <- !app_assoc.
  - destruct Htyp as [E|E]; [done|].
    rewrite index_last. rewrite bool_decide_eq_true_2 by done.
    unfold_M. rewrite index_last, slice_to_last. unfold_M.
    rewrite HM. unfold_M. destruct node as [n|]; unfold_M.
    + by rewrite Hadd, <- !app_assoc.
    + by rewrite <- !app_assoc.
Qed.

(** C9. [intHandler] reads the last component of the name before anything
    else: on an empty name the read is out of range and the handler
    panics, at index -1 of length 0, root or no root, with nothing called;
    on a name with at least one component the read is in bounds, and on a
    Tree with a root the handler then returns.  With a root, the handler
    returns exactly when the name is not empty. *)
Theorem intHandler_index_safe (args : InterestArgs) s :
  let name := int_Name (interest args) in
  (name = [] → intHandler args s = Panicked (IndexOutOfRange (-1) 0) s)
  ∧ (name ≠ [] →
     ∃ c, last name = Some c ∧ index name (last_index name) s = Done c s)
  ∧ (∀ r, Root (tree s) = Some r →
     ((∃ s', intHandler args s = Done () s') ↔ name ≠ [])).
Proof.
  cbn zeta. split; [|split].
  - intros E. unfold intHandler, ends_with_digest, last_index. rewrite E.
    by unfold_M.
  - intros Hne.
    destruct (int_Name (interest args)) as [|c0 l] using rev_ind; [done|].
    exists c0. split; [by rewrite last_snoc|]. apply index_last.
  - intros r Hroot. split.
    + intros [s' Hs'] E. revert Hs'.
      unfold intHandler, ends_with_digest, last_index. rewrite E.
      by unfold_M.
    + intros Hne.
      destruct (int_Name (interest args)) as [|c0 l _] eqn:En using rev_ind;
        [done|].
      destruct s as [[root eng] w cs]. cbn [tree Root] in Hroot. subst root.
      unfold intHandler, ends_with_digest, last_index. rewrite En.
      unfold_M. rewrite !index_last.
      destruct (decide (Typ c0 = TypeParametersSha256DigestComponent));
        [|rewrite index_last; case_bool_decide];
        unfold_M; rewrite ?index_last, ?slice_to_last; unfold_M;
        (destruct (node_Match r _ w) as [[[nd|] mt] w1]; unfold_M; eauto).
Qed.

End TreeClaims.

Section BaseNodeClaims.

Implicit Types (s : @State BaseWorld) (name : Name) (c : Component)
  (chd : list (ComponentPattern * NTree)).

(** [Tree.Match] over BaseNodes: the walk from the root's subtree, with
    the world left as it was. *)
Lemma Match_BaseWorld name s r :
  Root (tree s) = Some r →
  Match name s
  = Done (Match_from name (subtree r (world s)) ∅)
         (mkState (tree s) (world s)
            (calls s ++ [CallMatch r name
                           (Match_from name (subtree r (world s)) ∅)])).
Proof.
  destruct s as [[root eng] w cs]. cbn [tree Root]. intros ->.
  unfold Match. by unfold_M.
Qed.

Lemma first_of_Some kind c chd e :
  first_of kind c chd = Some e →
  ∃ i, chd !! i = Some e ∧ kind e.1 = true ∧ accepts e.1 c = true
     ∧ ∀ j e', j < i → chd !! j = Some e' →
         kind e'.1 = true → accepts e'.1 c = false.
Proof.
  unfold first_of. intros Hf.
  apply fmap_Some in Hf as ([i e0] & Hfind & ->). cbn [snd].
  apply list_find_Some in Hfind as (Hi & HP & Hbefore).
  apply andb_true_iff in HP as [Hk Ha].
  exists i. repeat split; try done.
  intros j e' Hj He' Hk'.
  specialize (Hbefore j e' He' Hj).
  destruct (accepts e'.1 c); [|done].
  exfalso. apply Hbefore. by rewrite Hk'.
Qed.

Lemma first_of_None kind c chd :
  first_of kind c chd = None →
  ∀ j e', chd !! j = Some e' → kind e'.1 = true → accepts e'.1 c = false.
Proof.
  unfold first_of. intros Hf j e' He' Hk'.
  apply fmap_None in Hf.
  pose proof (proj1 (list_find_None _ _) Hf) as Hall.
  rewrite Forall_forall in Hall.
  specialize (Hall e' (list_elem_of_lookup_2 _ _ _ He')).
  destruct (accepts e'.1 c); [|done].
  exfalso. apply Hall. by rewrite Hk'.
Qed.



(** C2, on the example tree: after one successful [Attach], the first
    [Detach] unregisters the handler and then runs [OnDetach], once on
    every node, children first; it leaves [t.Engine] set, and a second
    [Detach] does both again, so that every node has run [OnDetach]
    twice.  After the first [Detach] an Interest under the prefix reaches
    no handler, and an [Attach] at the same prefix succeeds. *)
Theorem Detach_twice_runs_OnDetach_twice :
  let s1 := final (run [OpAttach prefix0 (Some 0)] state0) in
  let s2 := final (run [OpDetach] s1) in
  let s3 := final (run [OpDetach] s2) in
  tree s1 = mkTree (Some 0) (Some 0)
  ∧ hooks (world s1)
    = [(0, HookAttach); (1, HookAttach); (2, HookAttach); (3, HookAttach)]
  ∧ calls s2 = calls s1 ++
      [ CallLog Info "Detached from engine"; CallAttachedPrefix 0 prefix0;
        CallDetachHandler 0 prefix0 None; CallOnDetach 0 ]
  ∧ hooks (world s2) = hooks (world s1) ++
      [(2, HookDetach); (3, HookDetach); (1, HookDetach); (0, HookDetach)]
  ∧ tree s2 = mkTree (Some 0) (Some 0)
  ∧ calls s3 = calls s2 ++
      [ CallLog Info "Detached from engine"; CallAttachedPrefix 0 prefix0;
        CallDetachHandler 0 prefix0 None; CallOnDetach 0 ]
  ∧ hooks (world s3) = hooks (world s2) ++
      [(2, HookDetach); (3, HookDetach); (1, HookDetach); (0, HookDetach)]
  ∧ deliver 0 (args_of (prefix0 ++ name_v)) s2 = Done () s2
  ∧ ∃ s4, Attach prefix0 (Some 0) s2 = Done None s4.
Proof.
  cbn zeta. repeat split; try (vm_compute; reflexivity).
  eexists. vm_compute. reflexivity.
Qed.

End BaseNodeClaims.

Section Witnesses.


Lemma PutNode_cases_witness :
  PutNode [] (Some 7) state0
  = Done (Some (errorString "schema node already exists")) state0
  ∧ PutNode [] (Some 7) state_empty
    = Done None (mkState (mkTree (Some 7) None) world_empty [])
  ∧ ∃ w3, PutNode [CP_Component (generic "a")] (Some 7) state_empty
          = Done None (mkState (mkTree (Some 8) None) w3
                         [ CallNewBaseNode 8; CallInit 8 None CP_nil;
                           CallPutNode 8 [CP_Component (generic "a")]
                                       (Some 7) None ]).
Proof.
  split; [|split].
  - destruct (PutNode_cases [] (Some 7) state0) as (H1 & _).
    apply (H1 eq_refl 0). reflexivity.
  - destruct (PutNode_cases [] (Some 7) state_empty) as (_ & H2 & _).
    apply (H2 eq_refl). reflexivity.
  - destruct (PutNode_cases [CP_Component (generic "a")] (Some 7) state_empty)
      as (_ & _ & H3 & _).
    eexists. eapply H3; [discriminate | reflexivity | reflexivity |].
    vm_compute. reflexivity.
Defined.

Lemma intHandler_digest_witness :
  intHandler (args_of (name_v ++ [mkComponent 2%N digest32])) state0
  = Done () (mkState (tree state0)
               (node_OnInterest 2
                  (args_of (name_v ++ [mkComponent 2%N digest32]))
                  (<["params-sha256" := digest32]> {[ "time" := ["d"%byte] ]})
                  world0)
               [ CallMatch 0 name_v (Some 2, {[ "time" := ["d"%byte] ]});
                 CallOnInterest 2
                   (args_of (name_v ++ [mkComponent 2%N digest32]))
                   (<["params-sha256" := digest32]>
                      {[ "time" := ["d"%byte] ]}) ]).
Proof.
  apply (intHandler_digest
           (args_of (name_v ++ [mkComponent 2%N digest32])) state0
           name_v (mkComponent 2%N digest32) 0
           (Some 2) {[ "time" := ["d"%byte] ]} world0).
  - reflexivity.
  - left. reflexivity.
  - reflexivity.
  - vm_compute. reflexivity.
Defined.

Lemma intHandler_index_safe_witness :
  intHandler (args_of []) state0 = Panicked (IndexOutOfRange (-1) 0) state0
  ∧ (∃ c, last name_v = Some c
        ∧ index name_v (last_index name_v) state0 = Done c state0)
  ∧ ∃ s', intHandler (args_of name_v) state0 = Done () s'.
Proof.
  split; [|split].
  - destruct (intHandler_index_safe (args_of []) state0) as (H1 & _).
    apply H1. reflexivity.
  - destruct (intHandler_index_safe (args_of name_v) state0) as (_ & H2 & _).
    apply H2. discriminate.
  - destruct (intHandler_index_safe (args_of name_v) state0) as (_ & _ & H3).
    apply (H3 0); [reflexivity | discriminate].
Defined.

End Witnesses.

(* ===================================================================== *)
(** * Further properties of package encoding                              *)
(* ===================================================================== *)

From Stdlib.Strings Require Import Ascii.
Import EncodingOps TreeRuns MoreExamples.

Section SliceFacts.

Implicit Types (m : Mem) (w : Wire) (v : Buffer).

(** A write inside a slice's window is a list update of what the slice
    denotes. *)
Lemma set_byte_self m v i x :
  valid m v → i < len v →
  ∃ m', set_byte v i x m = Some m' ∧ length m' = length m
      ∧ bytes_of m' v = <[i := x]> (bytes_of m v).
Proof.
  unfold valid, set_byte, bytes_of, store, load. intros Hv Hi.
  rewrite decide_True by done. eexists. split; [done|].
  destruct (ptr v) as [| |k]; [cbn in Hv; lia ..|].
  destruct (m !! k) as [arr|] eqn:Hk; [|cbn in Hv; lia].
  cbn [default from_option id] in *. split; [by rewrite length_insert|].
  rewrite list_lookup_insert_eq by (by eapply lookup_lt_Some).
  cbn [default from_option id].
  change (take (off v + i) arr ++ [x] ++ drop (off v + i + length [x]) arr)
    with (take (off v + i) arr ++ x :: drop (off v + i + 1) arr).
  rewrite Nat.add_1_r, <- insert_take_drop by lia.
  rewrite drop_insert_ge by lia.
  rewrite take_insert_lt by lia.
  f_equal. lia.
Qed.

(** A write into the array allocated last leaves every slice that was
    well formed before the allocation as it was. *)
Lemma set_byte_fresh m arr v o i x n m' :
  valid m v →
  set_byte (mkBuffer (Arr (length m)) o n) i x (m ++ [arr]) = Some m' →
  bytes_of m' v = bytes_of m v.
Proof.
  intros Hv. unfold set_byte, store. cbn [ptr off len].
  case_decide; [|done]. intros [= <-].
  rewrite lookup_app_r, Nat.sub_diag by done. cbn [lookup list_lookup].
  rewrite <- (Nat.add_0_r (length m)) at 1. rewrite insert_app_r. cbn.
  by apply bytes_of_alloc.
Qed.

End SliceFacts.

(** X1. [Join] never writes into what it is given: the memory it leaves
    extends the one it found, and every slice that was well formed before
    the call, the Buffers of the Wire among them, is well formed after it
    and denotes the same bytes; the result is well formed too. *)
Theorem Join_leaves_inputs (m : Mem) (w : Wire) (b : Buffer) (m' : Mem) :
  Forall (valid m) w → Join w m = Some (b, m') →
  m `prefix_of` m' ∧ valid m' b
  ∧ ∀ v, valid m v → valid m' v ∧ bytes_of m' v = bytes_of m v.
Proof.
  intros Hall HJ.
  destruct (Join_spec m w Hall) as (b0 & m0 & HJ0 & _ & _ & Hvb & Hm).
  rewrite HJ in HJ0. injection HJ0 as <- <-.
  split; [|split; [done|]].
  - destruct Hm as [->| ->]; [done|]. by apply prefix_app_r.
  - intros v Hv. by eapply Join_keeps.
Qed.

Lemma Join_leaves_inputs_witness :
  ∃ b m', Join wire3 mem3 = Some (b, m')
        ∧ mem3 `prefix_of` m'
        ∧ Forall (λ v, bytes_of m' v = bytes_of mem3 v) wire3.
Proof.
  assert (Forall (valid mem3) wire3) as H3
    by (unfold wire3, mem3; repeat constructor; unfold valid; simpl; lia).
  destruct (Join_spec mem3 wire3 H3) as (b & m' & HJ & _).
  exists b, m'. split; [exact HJ|].
  destruct (Join_leaves_inputs mem3 wire3 b m' H3 HJ) as (Hpre & _ & Hkeep).
  split; [exact Hpre|].
  eapply Forall_impl; [exact H3|]. intros v Hv. by apply Hkeep.
Defined.

(** X2. Joining the results of two [Join]s gives the bytes of the [Join] of
    the two Wires put one after the other. *)
Theorem Join_of_Joins (m : Mem) (w1 w2 : Wire) (b1 b2 : Buffer) (m1 m2 : Mem) :
  Forall (valid m) w1 → Forall (valid m) w2 →
  Join w1 m = Some (b1, m1) → Join w2 m1 = Some (b2, m2) →
  ∃ b3 m3 b m',
    Join [b1; b2] m2 = Some (b3, m3)
    ∧ Join (w1 ++ w2) m = Some (b, m')
    ∧ bytes_of m3 b3 = bytes_of m' b
    ∧ bytes_of m3 b3 = concat (bytes_of m <$> w1) ++ concat (bytes_of m <$> w2).
Proof.
  intros H1 H2 HJ1 HJ2.
  destruct (Join_spec m w1 H1) as (? & ? & E & Hb1 & _ & Hv1 & _).
  rewrite HJ1 in E. injection E as <- <-.
  assert (∀ v, valid m v → valid m1 v ∧ bytes_of m1 v = bytes_of m v) as K1
    by (intros v Hv; exact (Join_keeps m w1 b1 m1 v H1 HJ1 Hv)).
  assert (Forall (valid m1) w2) as H2'.
  { eapply Forall_impl; [exact H2|]. intros v Hv. by apply K1. }
  destruct (Join_spec m1 w2 H2') as (? & ? & E & Hb2 & _ & Hv2 & _).
  rewrite HJ2 in E. injection E as <- <-.
  destruct (Join_keeps m1 w2 b2 m2 b1 H2' HJ2 Hv1) as [Hv1' Hb1'].
  assert (Forall (valid m2) [b1; b2]) as H12 by (by repeat constructor).
  destruct (Join_spec m2 _ H12) as (b3 & m3 & HJ3 & Hb3 & _).
  assert (Forall (valid m) (w1 ++ w2)) as H by (by apply Forall_app).
  destruct (Join_spec m _ H) as (b & m' & HJ & Hb & _).
  exists b3, m3, b, m'.
  assert (bytes_of m3 b3
          = concat (bytes_of m <$> w1) ++ concat (bytes_of m <$> w2)) as E3.
  { rewrite Hb3. cbn [fmap list_fmap concat]. rewrite app_nil_r.
    rewrite Hb1', Hb1, Hb2. do 2 f_equal.
    apply Forall_fmap_ext_1.
    eapply Forall_impl; [exact H2|]. intros v Hv. by apply K1. }
  repeat split; try done.
  by rewrite E3, Hb, fmap_app, concat_app.
Qed.

Lemma Join_of_Joins_witness :
  ∃ b1 m1 b2 m2 b3 m3 b m',
    Join (take 2 wire3) mem3 = Some (b1, m1)
    ∧ Join (drop 2 wire3) m1 = Some (b2, m2)
    ∧ Join [b1; b2] m2 = Some (b3, m3)
    ∧ Join (take 2 wire3 ++ drop 2 wire3) mem3 = Some (b, m')
    ∧ bytes_of m3 b3 = bytes_of m' b.
Proof.
  assert (Forall (valid mem3) (take 2 wire3)) as H1
    by (unfold wire3, mem3; repeat constructor; unfold valid; simpl; lia).
  assert (Forall (valid mem3) (drop 2 wire3)) as H2
    by (unfold wire3, mem3; repeat constructor; unfold valid; simpl; lia).
  destruct (Join_spec mem3 _ H1) as (b1 & m1 & HJ1 & _).
  assert (Forall (valid m1) (drop 2 wire3)) as H2'.
  { eapply Forall_impl; [exact H2|]. intros v Hv.
    by apply (Join_keeps mem3 _ b1 m1 v H1 HJ1). }
  destruct (Join_spec m1 _ H2') as (b2 & m2 & HJ2 & _).
  destruct (Join_of_Joins mem3 _ _ b1 b2 m1 m2 H1 H2 HJ1 HJ2)
    as (b3 & m3 & b & m' & HJ3 & HJ & E & _).
  exists b1, m1, b2, m2, b3, m3, b, m'. by repeat split.
Defined.

(** X3. Writing a byte through the result of [Join] shows what is shared:
    the write always lands in the result; for a Wire of one Buffer it is
    seen through that Buffer as well, for a Wire of two or more Buffers no
    Buffer of the Wire changes. *)
Theorem Join_result_sharing (m : Mem) (w : Wire) (r : Buffer) (m' : Mem)
    (i : nat) (x : byte) :
  Forall (valid m) w → Join w m = Some (r, m') → i < len r →
  ∃ m'', set_byte r i x m' = Some m''
       ∧ bytes_of m'' r = <[i := x]> (bytes_of m' r)
       ∧ (∀ v, w = [v] → bytes_of m'' v = <[i := x]> (bytes_of m v))
       ∧ (2 ≤ length w → Forall (λ v, bytes_of m'' v = bytes_of m v) w).
Proof.
  intros Hall HJ Hi.
  destruct (Join_spec m w Hall) as (? & ? & E & _ & _ & Hvr & _).
  rewrite HJ in E. injection E as <- <-.
  destruct (set_byte_self m' r i x Hvr Hi) as (m'' & Hset & _ & Hr).
  exists m''. split; [done|]. split; [done|]. split.
  - intros v ->. cbn in HJ. injection HJ as -> ->. exact Hr.
  - intros Hlen. destruct w as [|v0 [|v1 rest]]; [cbn in Hlen; lia ..|].
    rewrite Join_many in HJ by done. injection HJ as <- <-.
    eapply Forall_impl; [exact Hall|]. intros v Hv.
    by eapply set_byte_fresh.
Qed.

Lemma Join_result_sharing_witness :
  (∃ m'', set_byte (mkBuffer (Arr 0) 1 2) 0 "z"%byte mem3 = Some m''
        ∧ bytes_of m'' (mkBuffer (Arr 0) 1 2) = ["z"; "c"]%byte)
  ∧ ∃ r m' m'', Join wire3 mem3 = Some (r, m')
        ∧ set_byte r 0 "z"%byte m' = Some m''
        ∧ Forall (λ v, bytes_of m'' v = bytes_of mem3 v) wire3.
Proof.
  split.
  - assert (Forall (valid mem3) [mkBuffer (Arr 0) 1 2]) as H1
      by (unfold mem3; repeat constructor; unfold valid; simpl; lia).
    destruct (Join_result_sharing mem3 _ (mkBuffer (Arr 0) 1 2) mem3 0 "z"%byte
                H1 eq_refl) as (m'' & Hset & _ & Hone & _); [simpl; lia|].
    exists m''. split; [exact Hset|]. by apply Hone.
  - assert (Forall (valid mem3) wire3) as H3
      by (unfold wire3, mem3; repeat constructor; unfold valid; simpl; lia).
    destruct (Join_spec mem3 wire3 H3) as (r & m' & HJ & _ & Hlen & _).
    destruct (Join_result_sharing mem3 wire3 r m' 0 "z"%byte H3 HJ)
      as (m'' & Hset & _ & _ & Hmany); [rewrite Hlen; simpl; lia|].
    exists r, m', m''. repeat split; try done. apply Hmany. simpl; lia.
Defined.

Section ErrorChains.

Lemma append_length (s1 s2 : string) :
  String.length (s1 +:+ s2) = String.length s1 + String.length s2.
Proof.
  induction s1 as [|a s1 IH]; [done|].
  change (S (String.length (s1 +:+ s2)) = S (String.length s1 + String.length s2)).
  by rewrite IH.
Qed.

Lemma append_cancel_r (s1 s2 s : string) : s1 +:+ s = s2 +:+ s → s1 = s2.
Proof.
  revert s2. induction s1 as [|a s1 IH]; intros [|b s2] E.
  - done.
  - apply (f_equal String.length) in E.
    rewrite !append_length in E. cbn in E. lia.
  - apply (f_equal String.length) in E.
    rewrite !append_length in E. cbn in E. lia.
  - change (String a (s1 +:+ s) = String b (s2 +:+ s)) in E.
    injection E as -> E. f_equal. by apply IH.
Qed.

Lemma pretty_N_go_digits (x : N) : ∀ s, digits s → digits (pretty_N_go x s).
Proof.
  induction (N.lt_wf_0 x) as [x _ IH]; intros s Hs.
  assert (x = 0 ∨ 0 < x)%N as [->|Hx] by lia; [by rewrite pretty_N_go_0|].
  rewrite pretty_N_go_step by done. apply IH; [by apply N.div_lt|].
  split; [by eexists|done].
Qed.

Lemma fmt_d_digits (t : TLNum) : digits (fmt_d t).
Proof.
  unfold fmt_d, pretty, pretty_N. case_decide.
  - split; [by exists 0%N|done].
  - by apply pretty_N_go_digits.
Qed.

(** Two digit strings, each followed by a character that is no digit,
    agree when the whole strings do. *)
Lemma digits_then_sep (sep : Ascii.ascii) (d1 d2 r1 r2 : string) :
  (∀ x, sep ≠ pretty_N_char x) → digits d1 → digits d2 →
  d1 +:+ String sep r1 = d2 +:+ String sep r2 → d1 = d2 ∧ r1 = r2.
Proof.
  intros Hsep. revert d2.
  induction d1 as [|a d1 IH]; intros [|b d2] H1 H2 E.
  - by injection E as ->.
  - change (String sep r1 = String b (d2 +:+ String sep r2)) in E.
    injection E as -> _. destruct H2 as [[x Hx] _]. by destruct (Hsep x).
  - change (String a (d1 +:+ String sep r1) = String sep r2) in E.
    injection E as -> _. destruct H1 as [[x Hx] _]. by destruct (Hsep x).
  - change (String a (d1 +:+ String sep r1) = String b (d2 +:+ String sep r2))
      in E.
    injection E as -> E. destruct H1 as [_ H1], H2 as [_ H2].
    destruct (IH d2 H1 H2 E) as [-> ->]. done.
Qed.

Lemma not_digit_colon x : ":"%char ≠ pretty_N_char x.
Proof. unfold pretty_N_char. by repeat case_match. Qed.

Lemma not_digit_space x : " "%char ≠ pretty_N_char x.
Proof. unfold pretty_N_char. by repeat case_match. Qed.

Lemma root_cause_Unwrap (e : error) : Unwrap (root_cause e) = None.
Proof.
  revert e. fix IH 1. intros [ | | | |t [e'|]|[e'|]| ]; cbn; try done; apply IH.
Qed.

Lemma Error_root_cause (e : error) : ∃ pre, Error e = pre +:+ Error (root_cause e).
Proof.
  revert e. fix IH 1. intros e.
  destruct e as [ | | | |t [e'|]|[e'|]| ]; try by exists "".
  - destruct (IH e') as [pre Hpre].
    exists ("Failed to parse field " +:+ fmt_d t +:+ ": " +:+ pre).
    rewrite Error_ErrFailToParse, Hpre. cbn [root_cause].
    by rewrite !append_assoc.
  - destruct (IH e') as [pre Hpre].
    exists ("Unexpected error happened in parsing: " +:+ pre).
    change (Error (ErrUnexpected (Some e')))
      with ("Unexpected error happened in parsing: " +:+ Error e').
    rewrite Hpre. cbn [root_cause]. by rewrite !append_assoc.
Qed.

End ErrorChains.

(** X4. However deep [ErrFailToParse] and [ErrUnexpected] wrap an error,
    the message of the outermost ends in the message of the error the
    chain of [Unwrap()]s ends in, and that error unwraps no further. *)
Theorem Error_ends_in_root_cause (e : error) :
  (∃ pre, Error e = pre +:+ Error (root_cause e))
  ∧ Unwrap (root_cause e) = None
  ∧ (∀ e', Unwrap e = Some e' → root_cause e = root_cause e')
  ∧ (Unwrap e = None → root_cause e = e).
Proof.
  split; [apply Error_root_cause|]. split; [apply root_cause_Unwrap|].
  split.
  - intros e'. destruct e as [ | | | |t [e0|]|[e0|]| ]; cbn; try done;
      by intros [= ->].
  - destruct e as [ | | | |t [e0|]|[e0|]| ]; cbn; done.
Qed.

Lemma Error_ends_in_root_cause_witness :
  root_cause (ErrFailToParse 7%N (Some (ErrUnexpected (Some ErrBufferOverflow))))
  = root_cause (ErrUnexpected (Some ErrBufferOverflow)).
Proof.
  destruct (Error_ends_in_root_cause
              (ErrFailToParse 7%N (Some (ErrUnexpected (Some ErrBufferOverflow)))))
    as (_ & _ & H & _).
  apply H. reflexivity.
Defined.

(** X5. The message of an error tells its field: two [ErrFailToParse]
    with the same message have the same type number, whatever they wrap,
    and the messages of what they wrap agree; the messages of
    [ErrSkipRequired], of [ErrUnrecognizedField] and of [ErrNotFound]
    determine the type number and the key. *)
Theorem Error_determines_field :
  (∀ t t' o o',
     Error (ErrFailToParse t o) = Error (ErrFailToParse t' o') → t = t')
  ∧ (∀ t t' e e',
     Error (ErrFailToParse t (Some e)) = Error (ErrFailToParse t' (Some e')) →
     Error e = Error e')
  ∧ (∀ t t', Error (ErrSkipRequired t) = Error (ErrSkipRequired t') → t = t')
  ∧ (∀ t t',
     Error (ErrUnrecognizedField t) = Error (ErrUnrecognizedField t') → t = t')
  ∧ (∀ k k', Error (ErrNotFound k) = Error (ErrNotFound k') → k = k').
Proof.
  assert (∀ t t' r r',
            "Failed to parse field " +:+ fmt_d t +:+ ": " +:+ r
            = "Failed to parse field " +:+ fmt_d t' +:+ ": " +:+ r' →
            t = t' ∧ r = r') as Hfail.
  { intros t t' r r' E. apply (inj (String.app _)) in E.
    change (": " +:+ r) with (String ":" (" " +:+ r)) in E.
    change (": " +:+ r') with (String ":" (" " +:+ r')) in E.
    apply digits_then_sep in E as [Ed Er];
      [|apply not_digit_colon|apply fmt_d_digits..].
    split; [by apply (inj pretty) in Ed|].
    by apply (inj (String.app _)) in Er. }
  repeat split.
  - intros t t' o o' E. destruct o, o'; by apply Hfail in E as [-> _].
  - intros t t' e e' E. rewrite !Error_ErrFailToParse in E.
    by apply Hfail in E as [_ ?].
  - intros t t' E. cbn [Error] in E. apply (inj (String.app _)) in E.
    change (" is missing in the wire")
      with (String " " "is missing in the wire") in E.
    apply digits_then_sep in E as [Ed _];
      [|apply not_digit_space|apply fmt_d_digits..].
    by apply (inj pretty) in Ed.
  - intros t t' E. cbn [Error] in E. apply (inj (String.app _)) in E.
    by apply (inj pretty) in E.
  - intros k k' E. cbn [Error] in E. by apply append_cancel_r in E.
Qed.

Lemma Error_determines_field_witness :
  7%N = 7%N ∧ Error ErrBufferOverflow = Error ErrBufferOverflow.
Proof.
  destruct Error_determines_field as (H1 & H2 & _).
  split.
  - exact (H1 7%N 7%N (Some ErrBufferOverflow) (Some ErrBufferOverflow) eq_refl).
  - exact (H2 7%N 7%N ErrBufferOverflow ErrBufferOverflow eq_refl).
Defined.

(* ===================================================================== *)
(** * Further properties of the schema Tree                               *)
(* ===================================================================== *)

(** Unfolds the Tree's methods and splits on every outcome. *)
Ltac split_methods :=
  unfold Attach, Detach, Match, At, PutNode, intHandler, ends_with_digest,
    index, slice_to;
  rewrite ?make_path_literals;
  split_M.

Section MethodFacts.

Context {W : Type} `{!World W}.

Implicit Types (s : @State W) (c : Method) (cs : list Method).

Lemma final_execs_cons c cs s :
  final (execs (c :: cs) s)
  = match exec c s with
    | Done _ s1 => final (execs cs s1)
    | Panicked _ s1 => s1
    end.
Proof. cbn [execs]. unfold_M. by destruct (exec c s). Qed.

(** A property of the state that every method keeps is kept by every
    sequence of methods. *)
Lemma execs_keeps (P : @State W → Prop) :
  (∀ c s, P s → P (final (exec c s))) →
  ∀ cs s, P s → P (final (execs cs s)).
Proof.
  intros Hstep cs. induction cs as [|c cs IH]; intros s Hs; [done|].
  rewrite final_execs_cons. specialize (Hstep c s Hs).
  destruct (exec c s) as [[] s1|p s1]; cbn [final] in Hstep; auto.
Qed.

Lemma exec_Root c s r :
  Root (tree s) = Some r → Root (tree (final (exec c s))) = Some r.
Proof.
  destruct s as [[root eng] w calls0]. cbn [tree Root]. intros ->.
  destruct c; cbn [exec]; split_methods; done.
Qed.

Lemma exec_Root_other c s :
  (∀ path node, c ≠ MPutNode path node) →
  Root (tree (final (exec c s))) = Root (tree s).
Proof.
  destruct s as [[root eng] w calls0]. cbn [tree Root]. intros Hc.
  destruct c as [ | | | | |p n]; cbn [exec]; try (by destruct (Hc p n));
    split_methods; done.
Qed.

Lemma exec_Engine c s :
  is_Some (Engine (tree s)) → is_Some (Engine (tree (final (exec c s)))).
Proof.
  destruct s as [[root eng] w calls0]. cbn [tree Engine]. intros Heng.
  destruct c; cbn [exec]; split_methods; done.
Qed.

Lemma exec_Engine_other c s :
  (∀ prefix engine, c ≠ MAttach prefix engine) →
  Engine (tree (final (exec c s))) = Engine (tree s).
Proof.
  destruct s as [[root eng] w calls0]. cbn [tree Engine]. intros Hc.
  destruct c as [p e| | | | | ]; cbn [exec]; try (by destruct (Hc p e));
    split_methods; done.
Qed.

(** A Tree whose [Engine] is set has a root. *)
Lemma exec_attached_has_root c s :
  (is_Some (Engine (tree s)) → is_Some (Root (tree s))) →
  is_Some (Engine (tree (final (exec c s)))) →
  is_Some (Root (tree (final (exec c s)))).
Proof.
  destruct s as [[root eng] w calls0]. cbn [tree Root Engine]. intros Hinv.
  destruct c; cbn [exec]; split_methods; cbn; eauto;
    intros He; by destruct (Hinv He).
Qed.

End MethodFacts.

Section Ordering.

Context {W : Type} `{!World W}.

Implicit Types (s : @State W) (c : Method) (cs : list Method)
  (tr ext : list Call).

Lemma ordered_app tr : ∀ prev ext,
  ordered prev (tr ++ ext) ↔ ordered prev tr ∧ ordered (last_call prev tr) ext.
Proof.
  induction tr as [|c tr IH]; intros prev ext.
  - cbn. tauto.
  - cbn [app ordered]. rewrite IH.
    replace (last_call prev (c :: tr)) with (last_call (Some c) tr); [tauto|].
    unfold last_call. destruct tr as [|c1 tr]; [done|].
    rewrite (last_cons_cons c).
    destruct (last (c1 :: tr)) eqn:E; [done|]. by apply last_None in E.
Qed.

Lemma ordered_lookup tr : ∀ prev i (x : Call),
  ordered prev tr → tr !! i = Some x →
  follows (match i with 0 => prev | S j => tr !! j end) x.
Proof.
  induction tr as [|c0 tr IH]; intros prev i x Hord Hi; [done|].
  destruct Hord as [H0 Hord]. destruct i as [|i].
  - by injection Hi as <-.
  - cbn in Hi. specialize (IH (Some c0) i x Hord Hi).
    destruct i; exact IH.
Qed.

Lemma exec_ordered c s :
  ordered None (calls s) → ordered None (calls (final (exec c s))).
Proof.
  destruct s as [[root eng] w tr]. cbn [calls]. intros Hord.
  destruct c; cbn [exec]; split_methods;
    rewrite <- ?app_assoc; try done;
    (apply ordered_app; split; [done|]); cbn; auto.
Qed.

Lemma execs_ordered cs s :
  calls s = [] → ordered None (calls (final (execs cs s))).
Proof.
  intros Hnil.
  apply (execs_keeps (λ s, ordered None (calls s))).
  - apply exec_ordered.
  - by rewrite Hnil.
Qed.

End Ordering.

Section MethodResults.

Context {W : Type} `{!World W}.

Implicit Types (s : @State W) (c : Method) (cs : list Method).

(** X6. Once a Tree has a root, no method and no sequence of methods
    replaces or removes it, also when a call panics; and [PutNode] is the
    only method that ever sets the root. *)
Theorem Root_never_replaced :
  (∀ cs s r, Root (tree s) = Some r →
     Root (tree (final (execs cs s))) = Some r)
  ∧ (∀ c s, (∀ path node, c ≠ MPutNode path node) →
     Root (tree (final (exec c s))) = Root (tree s)).
Proof.
  split.
  - intros cs s r. apply (execs_keeps (λ s, Root (tree s) = Some r)).
    intros c s0. apply exec_Root.
  - apply exec_Root_other.
Qed.

(** X7. [t.Engine], once set, is never cleared by any method or sequence
    of methods; [Attach] is the only method that writes it, and it writes
    it only when it returns no error. *)
Theorem Engine_never_cleared :
  (∀ cs s, is_Some (Engine (tree s)) →
     is_Some (Engine (tree (final (execs cs s)))))
  ∧ (∀ c s, (∀ prefix engine, c ≠ MAttach prefix engine) →
     Engine (tree (final (exec c s))) = Engine (tree s))
  ∧ (∀ prefix engine s,
     Engine (tree (final (Attach prefix engine s))) ≠ Engine (tree s) →
     ∃ s', Attach prefix engine s = Done None s'
         ∧ Engine (tree s') = engine ∧ is_Some engine).
Proof.
  split; [|split].
  - intros cs s. apply (execs_keeps (λ s, is_Some (Engine (tree s)))).
    intros c s0. apply exec_Engine.
  - apply exec_Engine_other.
  - intros prefix engine s.
    destruct (Attach prefix engine s) as [[err|] s'|p s'] eqn:HA; cbn [final].
    + apply Attach_Done in HA as (r & _ & -> & _). done.
    + intros _. exists s'. split; [done|].
      apply Attach_Done in HA as (r & _ & e & w1 & w2 & -> & _ & _ & _ & _ & ->).
      by split.
    + intros Hne. exfalso. apply Hne. revert HA.
      destruct s as [[root eng] w tr]. split_methods; by intros [= <- <-].
Qed.

(** X8. [Attach] on a Tree without root panics before anything is called.
    [Attach] with a nil engine panics too, but only after the prefix has
    been bound and [OnAttach] has run, with nil for the engine: the root
    is left attached to nothing. *)
Theorem Attach_nil_panics (prefix : Name) (engine : option EngRef) s :
  (Root (tree s) = None → Attach prefix engine s = Panicked NilDereference s)
  ∧ (∀ r w1 w2,
     Root (tree s) = Some r → engine = None →
     node_SetAttachedPrefix r prefix (world s) = (None, w1) →
     node_OnAttach r (CP_Component <$> prefix) None w1 = (None, w2) →
     Attach prefix engine s
     = Panicked NilDereference
         (mkState (tree s) w2
            (calls s ++ [ CallSetAttachedPrefix r prefix None;
                          CallOnAttach r (CP_Component <$> prefix) None None ]))).
Proof.
  destruct s as [[root eng] w tr]. cbn [tree world calls Root]. split.
  - intros ->. unfold Attach. by unfold_M.
  - intros r w1 w2 -> -> H1 H2. unfold Attach.
    rewrite make_path_literals. unfold_M. rewrite H1. unfold_M.
    rewrite H2. unfold_M. by rewrite <- app_assoc.
Qed.

(** X9. An [Attach] on a Tree that was not attached and that returns an
    error leaves a Tree on which [Detach] does nothing.  When the error is
    the engine's, [OnAttach] has run on the root without error, and no
    [Detach] will run [OnDetach] for it. *)
Theorem Attach_error_then_Detach (prefix : Name) (engine : option EngRef)
    s (err : error) s' :
  Engine (tree s) = None →
  Attach prefix engine s = Done (Some err) s' →
  Detach s' = Done () s'
  ∧ (∀ e, last (calls s')
          = Some (CallAttachHandler e prefix Tree_intHandler (Some err)) →
     ∃ r, CallOnAttach r (CP_Component <$> prefix) engine None ∈ calls s').
Proof.
  intros Heng HA.
  apply Attach_Done in HA as (r & _ & Htree & Hcalls). cbn zeta in Hcalls.
  split.
  - apply Detach_unattached. by rewrite Htree.
  - intros e Hlast. exists r.
    destruct Hcalls as [Hc|[Hc|(e' & _ & Hc)]]; rewrite Hc in *.
    + rewrite last_app in Hlast. cbn in Hlast. done.
    + rewrite last_app in Hlast. cbn in Hlast. done.
    + set_solver.
Qed.

(** X10. On a Tree that starts out unattached, [Detach] never panics,
    whatever was called before it: [t.Engine] is only ever set on a Tree
    that has a root, and the root stays.  It returns with the Tree's fields
    as they were, also when the engine returns an error from
    [DetachHandler]. *)
Theorem Detach_never_panics cs s :
  Engine (tree s) = None →
  ∃ s', Detach (final (execs cs s)) = Done () s'
      ∧ tree s' = tree (final (execs cs s)).
Proof.
  intros Heng.
  assert (is_Some (Engine (tree (final (execs cs s)))) →
          is_Some (Root (tree (final (execs cs s))))) as Hinv.
  { apply (execs_keeps
             (λ s, is_Some (Engine (tree s)) → is_Some (Root (tree s)))).
    - apply exec_attached_has_root.
    - rewrite Heng. by intros [? ?]. }
  destruct (Engine (tree (final (execs cs s)))) as [e|] eqn:He.
  - destruct Hinv as [r Hr]; [done|].
    destruct (engine_DetachHandler e
                (node_AttachedPrefix r (world (final (execs cs s))))
                (world (final (execs cs s)))) as [ret w1] eqn:HD.
    eexists. split; [by apply (Detach_attached _ r e ret w1)|done].
  - exists (final (execs cs s)). split; [by apply Detach_unattached|done].
Qed.

(** X11. When the name of an Interest does not end in a digest component,
    [intHandler] matches the whole name and hands the node that matched
    the matching exactly as [Match] returned it; when no node matches it
    logs the warning and calls no [OnInterest]. *)
Theorem intHandler_plain (args : InterestArgs) s (init : Name) (c : Component)
    (r : NodeRef) (node : option NodeRef) (matching : Matching) (w1 : W) :
  int_Name (interest args) = init ++ [c] →
  Typ c ≠ TypeParametersSha256DigestComponent →
  Typ c ≠ TypeImplicitSha256DigestComponent →
  Root (tree s) = Some r →
  node_Match r (init ++ [c]) (world s) = ((node, matching), w1) →
  intHandler args s =
    match node with
    | Some n =>
        Done () (mkState (tree s) (node_OnInterest n args matching w1)
                   (calls s ++ [ CallMatch r (init ++ [c]) (node, matching);
                                 CallOnInterest n args matching ]))
    | None =>
        Done () (mkState (tree s) w1
                   (calls s ++ [ CallMatch r (init ++ [c]) (node, matching);
                                 CallLog Warn "Unexpected Interest. Drop." ]))
    end.
Proof.
  intros Hname Hp Hi Hroot HM.
  destruct s as [[root eng] w tr]. cbn [tree world calls Root Engine] in *.
  subst root. unfold intHandler, ends_with_digest, last_index.
  rewrite Hname. unfold_M. rewrite !index_last.
  rewrite decide_False by done. rewrite index_last.
  rewrite bool_decide_eq_false_2 by done. unfold_M.
  rewrite HM. unfold_M. destruct node as [n|]; unfold_M.
  - by rewrite <- !app_assoc.
  - by rewrite <- !app_assoc.
Qed.

(** X12. After [PutNode] has installed a root at the empty path, whatever
    is called on the Tree afterwards, that node is still the root and
    every further [PutNode] at the empty path fails with the
    already-exists error and changes nothing. *)
Theorem PutNode_root_once (n : NodeRef) s s1 cs (node' : option NodeRef) :
  PutNode [] (Some n) s = Done None s1 →
  Root (tree (final (execs cs s1))) = Some n
  ∧ PutNode [] node' (final (execs cs s1))
    = Done (Some (errorString "schema node already exists"))
           (final (execs cs s1)).
Proof.
  intros HP.
  assert (Root (tree s1) = Some n) as Hroot.
  { revert HP. destruct s as [[root eng] w tr]. unfold PutNode. unfold_M.
    destruct root; unfold_M; [done|]. by intros [= <-]. }
  assert (Root (tree (final (execs cs s1))) = Some n) as Hlater.
  { revert Hroot. apply (execs_keeps (λ s, Root (tree s) = Some n)).
    intros c s0. apply exec_Root. }
  split; [done|].
  destruct (final (execs cs s1)) as [[root eng] w tr].
  cbn [tree Root] in Hlater. subst root. unfold PutNode. by unfold_M.
Qed.

(** X13. In the record of the calls a Tree makes, from its creation on and
    whatever sequence of methods is called on it: an [OnDetach] comes right
    after a [DetachHandler]; a registration of the handler comes right
    after an [OnAttach] that returned no error and was given the same
    engine and the path of the prefix that is registered; an [OnInterest]
    goes to the node that the [Match] right before it returned. *)
Theorem calls_in_order cs s :
  calls s = [] →
  let tr := calls (final (execs cs s)) in
  (∀ i r, tr !! i = Some (CallOnDetach r) →
     ∃ j e p ret, i = S j ∧ tr !! j = Some (CallDetachHandler e p ret))
  ∧ (∀ i e p h ret, tr !! i = Some (CallAttachHandler e p h ret) →
     ∃ j r, i = S j
          ∧ tr !! j = Some (CallOnAttach r (CP_Component <$> p) (Some e) None))
  ∧ (∀ i n args m, tr !! i = Some (CallOnInterest n args m) →
     ∃ j r name m0, i = S j ∧ tr !! j = Some (CallMatch r name (Some n, m0))).
Proof.
  intros Hnil tr.
  pose proof (execs_ordered cs s Hnil) as Hord. fold tr in Hord.
  repeat split.
  - intros i r Hi. pose proof (ordered_lookup tr None i _ Hord Hi) as Hf.
    cbn in Hf. destruct i as [|j]; [done|].
    destruct (tr !! j) as [[]|] eqn:Hj; try done. by eexists _, _, _, _.
  - intros i e p h ret Hi.
    pose proof (ordered_lookup tr None i _ Hord Hi) as Hf.
    cbn in Hf. destruct i as [|j]; [done|].
    destruct (tr !! j) as [[ | |r0 path0 eng0 [|]| | | | | | | | | | ]|] eqn:Hj;
      try done.
    destruct Hf as [-> ->]. by eexists _, _.
  - intros i n args m Hi.
    pose proof (ordered_lookup tr None i _ Hord Hi) as Hf.
    cbn in Hf. destruct i as [|j]; [done|].
    destruct (tr !! j) as [[ | | | |r0 name0 [node0 m0]| | | | | | | | ]|] eqn:Hj;
      try done.
    subst node0. by eexists _, _, _, _.
Qed.

(** On a Tree with a root, the handler returns on every Interest whose
    name has a component. *)
Lemma intHandler_returns (args : InterestArgs) s r :
  Root (tree s) = Some r → int_Name (interest args) ≠ [] →
  ∃ s', intHandler args s = Done () s'.
Proof.
  intros Hroot Hne.
  destruct (int_Name (interest args)) as [|c0 l _] eqn:En using rev_ind;
    [done|].
  destruct s as [[root eng] w tr]. cbn [tree Root] in Hroot. subst root.
  unfold intHandler, ends_with_digest, last_index. rewrite En.
  unfold_M. rewrite !index_last.
  destruct (decide (Typ c0 = TypeParametersSha256DigestComponent));
    [|rewrite index_last; case_bool_decide];
    unfold_M; rewrite ?index_last, ?slice_to_last; unfold_M;
    (destruct (node_Match r _ w) as [[[nd|] mt] w1]; unfold_M; eauto).
Qed.

(** X14. After an [Attach] that returned no error, whatever is called on
    the Tree, a [Detach] included, the handler returns on every Interest
    with a non-empty name and [Match] and [At] return on every argument:
    none of them panics for want of a root. *)
Theorem no_panic_after_Attach (prefix : Name) (engine : option EngRef)
    s s1 cs (args : InterestArgs) (name : Name) (path : NamePattern) :
  Attach prefix engine s = Done None s1 →
  let s2 := final (execs cs s1) in
  (int_Name (interest args) ≠ [] → ∃ s', intHandler args s2 = Done () s')
  ∧ (∃ res s', Match name s2 = Done res s')
  ∧ (∃ res s', At path s2 = Done res s').
Proof.
  intros HA s2.
  apply Attach_Done in HA as (r & _ & e & w1 & w2 & _ & _ & _ & _ & _ & Ht).
  assert (Root (tree s2) = Some r) as Hroot.
  { apply (execs_keeps (λ s, Root (tree s) = Some r)).
    - intros c s0. apply exec_Root.
    - by rewrite Ht. }
  split; [by apply (intHandler_returns args s2 r)|].
  destruct s2 as [[root eng] w tr]. cbn [tree Root] in Hroot. subst root.
  split.
  - unfold Match. unfold_M.
    destruct (node_Match r name w) as [res w3]. by eexists _, _.
  - unfold At. unfold_M. by eexists _, _.
Qed.

End MethodResults.

Section MoreWitnesses.

Lemma Root_never_replaced_witness :
  Root (tree (final (execs methods0 state0))) = Some 0
  ∧ Root (tree (final (exec MDetach state_empty))) = None.
Proof.
  destruct (Root_never_replaced (W := BaseWorld)) as [Hseq Hone].
  split.
  - apply (Hseq methods0 state0 0). reflexivity.
  - rewrite (Hone MDetach state_empty); [reflexivity|discriminate].
Defined.

Lemma Engine_never_cleared_witness :
  is_Some (Engine (tree (final (execs [MDetach; MDetach]
                                  (final (Attach prefix0 (Some 0) state0)))))).
Proof.
  destruct (Engine_never_cleared (W := BaseWorld)) as [Hseq _].
  apply Hseq. vm_compute. by eexists.
Defined.

Lemma Attach_nil_panics_witness :
  Attach prefix0 (Some 0) state_empty = Panicked NilDereference state_empty
  ∧ ∃ w2, Attach prefix0 None state0
          = Panicked NilDereference
              (mkState (tree state0) w2
                 [ CallSetAttachedPrefix 0 prefix0 None;
                   CallOnAttach 0 (CP_Component <$> prefix0) None None ]).
Proof.
  split.
  - destruct (Attach_nil_panics prefix0 (Some 0) state_empty) as [H _].
    apply H. reflexivity.
  - destruct (Attach_nil_panics prefix0 None state0) as [_ H].
    eexists. eapply (H 0); reflexivity.
Defined.

Lemma Attach_error_then_Detach_witness :
  Attach prefix0 (Some 0) state_taken
  = Done (Some DuplicatePrefix) (final (Attach prefix0 (Some 0) state_taken))
  ∧ Detach (final (Attach prefix0 (Some 0) state_taken))
    = Done () (final (Attach prefix0 (Some 0) state_taken))
  ∧ ∃ r, CallOnAttach r (CP_Component <$> prefix0) (Some 0) None
         ∈ calls (final (Attach prefix0 (Some 0) state_taken)).
Proof.
  assert (Attach prefix0 (Some 0) state_taken
          = Done (Some DuplicatePrefix)
                 (final (Attach prefix0 (Some 0) state_taken))) as HA
    by (vm_compute; reflexivity).
  destruct (Attach_error_then_Detach prefix0 (Some 0) state_taken
              DuplicatePrefix _ eq_refl HA) as [HD Hleft].
  split; [exact HA|]. split; [exact HD|].
  apply (Hleft 0). vm_compute. reflexivity.
Defined.

Lemma Detach_never_panics_witness :
  ∃ s', Detach (final (execs methods0 state0)) = Done () s'
      ∧ tree s' = tree (final (execs methods0 state0)).
Proof. apply (Detach_never_panics methods0 state0). reflexivity. Defined.

Lemma intHandler_plain_witness :
  intHandler (args_of name_v) state0
  = Done () (mkState (tree state0)
               (node_OnInterest 2 (args_of name_v) {[ "time" := ["d"%byte] ]}
                  world0)
               [ CallMatch 0 name_v (Some 2, {[ "time" := ["d"%byte] ]});
                 CallOnInterest 2 (args_of name_v)
                   {[ "time" := ["d"%byte] ]} ]).
Proof.
  apply (intHandler_plain (args_of name_v) state0
           [generic "randomData"] (version "d") 0
           (Some 2) {[ "time" := ["d"%byte] ]} world0).
  - reflexivity.
  - discriminate.
  - discriminate.
  - reflexivity.
  - vm_compute. reflexivity.
Defined.

Lemma PutNode_root_once_witness :
  Root (tree (final (execs [MAttach [] (Some 0); MDetach]
                       (final (PutNode [] (Some 7) state_empty))))) = Some 7
  ∧ PutNode [] (Some 0)
      (final (execs [MAttach [] (Some 0); MDetach]
                (final (PutNode [] (Some 7) state_empty))))
    = Done (Some (errorString "schema node already exists"))
        (final (execs [MAttach [] (Some 0); MDetach]
                  (final (PutNode [] (Some 7) state_empty)))).
Proof.
  apply (PutNode_root_once 7 state_empty).
  vm_compute. reflexivity.
Defined.

Lemma calls_in_order_witness :
  calls (final (execs methods0 state0)) !! 5
  = Some (CallOnInterest 2 (args_of name_v) {[ "time" := ["d"%byte] ]})
  ∧ ∃ j r name m0,
      5 = S j
      ∧ calls (final (execs methods0 state0)) !! j
        = Some (CallMatch r name (Some 2, m0)).
Proof.
  assert (calls (final (execs methods0 state0)) !! 5
          = Some (CallOnInterest 2 (args_of name_v) {[ "time" := ["d"%byte] ]}))
    as H5 by (vm_compute; reflexivity).
  split; [exact H5|].
  destruct (calls_in_order methods0 state0 eq_refl) as (_ & _ & H).
  exact (H 5 2 _ _ H5).
Defined.

Lemma no_panic_after_Attach_witness :
  (∃ s', intHandler (args_of name_v)
           (final (execs [MDetach; MPutNode [] (Some 7)]
                     (final (Attach prefix0 (Some 0) state0)))) = Done () s')
  ∧ ∃ res s', Match [] (final (execs [MDetach; MPutNode [] (Some 7)]
                                  (final (Attach prefix0 (Some 0) state0))))
              = Done res s'.
Proof.
  destruct (no_panic_after_Attach prefix0 (Some 0) state0
              (final (Attach prefix0 (Some 0) state0))
              [MDetach; MPutNode [] (Some 7)] (args_of name_v) [] [])
    as (H1 & H2 & _); [vm_compute; reflexivity|].
  split; [apply H1; discriminate | exact H2].
Defined.

End MoreWitnesses.
